(** * Bicycle directions engine (routing/bicycle_directions.cpp)

    A shallow embedding of [AStarRoutingResult] and of
    [BicycleDirectionsEngine]: the adapter over the traversed edges, the
    adjacency map keyed by feature index, the loaded path segments and the
    features-loader guard held on the engine.

    The engine is stateful and can stop on a failed assertion, so its member
    functions are written in a small state-and-fault monad over the engine's
    member variables.  The feature index, the classifier of highway classes,
    the distance on the earth, the path reconstruction and the turn
    annotation are declared elsewhere in the program: they are the fields of
    the class [Collaborators], and the road graph is an argument. *)

From stdpp Require Import gmap strings list fin_maps.

(** ** Builds, faults and results *)

(** ASSERT is compiled only into debug builds, CHECK into every build. *)
Inductive Build := Debug | Release.

Inductive Fault :=
  | CheckFailed    (* a CHECK did not hold *)
  | AssertFailed   (* an ASSERT did not hold, debug builds only *)
  | OutOfRange.    (* operator[] past the end, or a null guard dereferenced *)

Inductive Result (A : Type) :=
  | Ok (a : A)
  | Crash (f : Fault).
Arguments Ok {A} a.
Arguments Crash {A} f.

#[global] Instance Build_eq_dec : EqDecision Build.
Proof. solve_decision. Defined.

#[global] Instance Fault_eq_dec : EqDecision Fault.
Proof. solve_decision. Defined.

(** Modelled from the spec: the assertion macros of base/assert.hpp, which is
    not among the sources.  A failed CHECK stops the call in every build
    ("fails/asserts", "fail-fast assertions"); a failed ASSERT stops it in a
    debug build and is compiled out of a release build ("debug assertion; in
    release, degrade"). *)
Definition CHECK_pure (cond : bool) : Result unit :=
  if cond then Ok tt else Crash CheckFailed.

Definition ASSERT_pure (build : Build) (cond : bool) : Result unit :=
  match build with
  | Debug => if cond then Ok tt else Crash AssertFailed
  | Release => Ok tt
  end.

(** ** Identifiers *)

(** Modelled from the spec: MwmSet::MwmId and FeatureID (indexer/mwm_set.hpp
    and indexer/feature_decl.hpp are not among the sources).  A feature
    identifier is a map partition and a local index; a default-constructed
    MwmId ([None]) names no partition, and the identifier of a fake edge,
    which lies on no partition, is the invalid one. *)
Definition MwmId := option nat.

Record FeatureID := mkFeatureID {
  m_mwmId : MwmId;
  m_index : N;        (* uint32_t *)
}.

Definition IsValid (f : FeatureID) : bool :=
  match m_mwmId f with Some _ => true | None => false end.

#[global] Instance FeatureID_eq_dec : EqDecision FeatureID.
Proof. solve_decision. Defined.

(** ftypes::HighwayClass.  The source names Undefined and Error; the road
    classes proper are the remaining enumerators. *)
Inductive HighwayClass :=
  | Undefined
  | Error
  | Road (c : nat).

#[global] Instance HighwayClass_eq_dec : EqDecision HighwayClass.
Proof. solve_decision. Defined.

Definition proper_class (c : HighwayClass) : bool :=
  bool_decide (c ≠ Error) && bool_decide (c ≠ Undefined).

(** turns::TurnDirection: the source names one enumerator. *)
Inductive TurnDirection :=
  | ReachedYourDestination
  | OtherDirection (d : nat).

#[global] Instance TurnDirection_eq_dec : EqDecision TurnDirection.
Proof. solve_decision. Defined.

(** TurnItem(index, turn). *)
Record TurnItem := mkTurnItem {
  turn_index : Z;
  turn_direction : TurnDirection;
}.

#[global] Instance TurnItem_eq_dec : EqDecision TurnItem.
Proof. solve_decision. Defined.

(** [pathSize - 1] on size_t (64 bits): wraps around at 0. *)
Definition size_t_pred (n : nat) : Z := ((Z.of_nat n - 1) mod 2 ^ 64)%Z.

(** Index::FeaturesLoaderGuard(index, mwmId): a loader bound to one map
    partition. *)
Record FeaturesLoaderGuard := mkGuard { guard_mwmId : MwmId }.

(** ** The road graph and the route *)

Section Data.

(** m2::PointD, double and FeatureType are opaque here. *)
Context {PointD double : Type}.

Record Junction := mkJunction { GetPoint : PointD }.

Record Edge := mkEdge {
  GetFeatureId : FeatureID;
  GetStartJunction : Junction;
  GetEndJunction : Junction;
}.

Record IRoadGraph := mkGraph {
  GetOutgoingEdges : Junction → list Edge;
  GetIngoingEdges : Junction → list Edge;
}.

(** TurnCandidate(angle, node, highwayClass). *)
Record TurnCandidate := mkTurnCandidate {
  angle : double;
  node : N;
  highwayClass : HighwayClass;
}.

Record TurnCandidates := mkTurnCandidates {
  candidates : list TurnCandidate;
  isCandidatesAngleValid : bool;
}.

Record AdjacentEdges := mkAdjacentEdges {
  m_outgoingTurns : TurnCandidates;
  m_ingoingTurnsCount : nat;
}.

Record LoadedPathSegment := mkSegment {
  m_path : list PointD;
  m_highwayClass : HighwayClass;
  m_onRoundabout : bool;
  m_isLink : bool;
  m_weight : double;
  m_name : string;
  m_nodeId : N;
}.

(** AStarRoutingResult: the three collections it refers to and the length
    computed by its constructor. *)
Record AStarRoutingResult := mkAStarRoutingResult {
  m_routeEdges : list Edge;
  m_adjacentEdges : gmap N AdjacentEdges;
  m_pathSegments : list LoadedPathSegment;
  m_routeLength : double;
}.

(** The member variables of BicycleDirectionsEngine; [e_adjacentEdges] and
    [e_pathSegments] are its m_adjacentEdges and m_pathSegments, which the
    adapter refers to under the same names.  [loadersConstructed] is not a
    member: it records, in order, each execution of
    [new Index::FeaturesLoaderGuard(index, mwmId)]. *)
Record Engine := mkEngine {
  e_adjacentEdges : gmap N AdjacentEdges;
  e_pathSegments : list LoadedPathSegment;
  m_featuresLoaderGuard : option FeaturesLoaderGuard;
  m_mwmIdFeaturesLoaderGuard : MwmId;
  loadersConstructed : list MwmId;
}.

(** What Generate hands back through its out-parameters. *)
Record GenerateOutput := mkOutput {
  out_times : list (N * double);
  out_turns : list TurnItem;
  out_routeGeometry : list PointD;
}.

(** Which way Generate left: through emptyPathWorkaround, or through
    MakeTurnAnnotation over the adapter [resultGraph]. *)
Inductive Outcome :=
  | DegenerateOutcome (out : GenerateOutput)
  | NormalOutcome (resultGraph : AStarRoutingResult) (out : GenerateOutput).

Definition outputs (o : Outcome) : GenerateOutput :=
  match o with
  | DegenerateOutcome out => out
  | NormalOutcome _ out => out
  end.

End Data.

Arguments Junction : clear implicits.
Arguments Edge : clear implicits.
Arguments IRoadGraph : clear implicits.
Arguments TurnCandidate : clear implicits.
Arguments TurnCandidates : clear implicits.
Arguments AdjacentEdges : clear implicits.
Arguments LoadedPathSegment : clear implicits.
Arguments AStarRoutingResult : clear implicits.
Arguments Engine : clear implicits.
Arguments GenerateOutput : clear implicits.
Arguments Outcome : clear implicits.

(** ** Collaborators

    What the translation unit takes from the rest of the program. *)
Class Collaborators (PointD double FeatureType Cancellable : Type) := {
  dzero : double;                                  (* the literal 0. *)
  dadd : double → double → double;                 (* += on double *)
  DistanceOnEarth : PointD → PointD → double;      (* MercatorBounds *)
  (* isCandidatesAngleValid of a fresh TurnCandidates *)
  angleValidByDefault : bool;
  (* FeaturesLoaderGuard::GetFeatureByIndex *)
  GetFeatureByIndex : FeaturesLoaderGuard → N → FeatureType;
  ftypes_GetHighwayClass : FeatureType → HighwayClass;
  IsLinkChecker : FeatureType → bool;
  IsRoundAboutChecker : FeatureType → bool;
  GetName : FeatureType → string;                  (* DEFAULT_LANG *)
  (* IDirectionsEngine::CalculateTimes *)
  CalculateTimes : IRoadGraph PointD → list (Junction PointD) → list (N * double);
  (* IDirectionsEngine::ReconstructPath: its result and [routeEdges] *)
  ReconstructPath : IRoadGraph PointD → list (Junction PointD) → Cancellable →
                    bool * list (Edge PointD);
  (* turns::MakeTurnAnnotation, started on empty routeGeometry and turns *)
  MakeTurnAnnotation : AStarRoutingResult PointD double →
                       list PointD * list TurnItem;
}.

Section Model.

Context `{W : Collaborators PointD double FeatureType Cancellable}.

(** AdjacentEdges(ingoingTurnsCount). *)
Definition AdjacentEdges_ctor (ingoingTurnsCount : nat) : AdjacentEdges double :=
  mkAdjacentEdges (mkTurnCandidates [] angleValidByDefault) ingoingTurnsCount.

(** Modelled from the spec: LoadedPathSegment::Clear
    (routing/loaded_path_segment.hpp is not among the sources), "an
    empty/cleared segment (no attributes resolved)". *)
Definition LoadedPathSegment_Clear : LoadedPathSegment PointD double :=
  mkSegment [] Undefined false false dzero EmptyString 0%N.

(** *** AStarRoutingResult *)

Definition edge_length (edge : Edge PointD) : double :=
  DistanceOnEarth (GetPoint (GetStartJunction edge))
                  (GetPoint (GetEndJunction edge)).

(** The constructor: m_routeLength starts at 0 and the range-for adds the
    length of each edge in turn. *)
Definition AStarRoutingResult_ctor (routeEdges : list (Edge PointD))
    (adjacentEdges : gmap N (AdjacentEdges double))
    (pathSegments : list (LoadedPathSegment PointD double))
    : AStarRoutingResult PointD double :=
  mkAStarRoutingResult routeEdges adjacentEdges pathSegments
    (fold_left (λ routeLength edge, dadd routeLength (edge_length edge))
               routeEdges dzero).

Definition GetSegments (r : AStarRoutingResult PointD double) :=
  m_pathSegments r.

Definition GetPathLength (r : AStarRoutingResult PointD double) : double :=
  m_routeLength r.

(** GetPossibleTurns writes its two out-parameters; [outgoingTurns] is the
    caller's object, of which only the candidates are overwritten. *)
Definition GetPossibleTurns (build : Build) (r : AStarRoutingResult PointD double)
    (node : N) (ingoingPoint junctionPoint : PointD)
    (outgoingTurns : TurnCandidates double)
    : Result (nat * TurnCandidates double) :=
  let ingoingCount := 0 in
  let outgoingTurns := mkTurnCandidates [] (isCandidatesAngleValid outgoingTurns) in
  match m_adjacentEdges r !! node with
  | None =>
      match ASSERT_pure build false with
      | Crash f => Crash f
      | Ok _ => Ok (ingoingCount, outgoingTurns)
      end
  | Some adjacentEdges =>
      Ok (m_ingoingTurnsCount adjacentEdges,
          mkTurnCandidates (candidates (m_outgoingTurns adjacentEdges))
                           (isCandidatesAngleValid outgoingTurns))
  end.

Definition GetStartPoint (r : AStarRoutingResult PointD double) : Result PointD :=
  match CHECK_pure (negb (bool_decide (m_routeEdges r = []))) with
  | Crash f => Crash f
  | Ok _ =>
      match head (m_routeEdges r) with
      | Some e => Ok (GetPoint (GetStartJunction e))
      | None => Crash OutOfRange
      end
  end.

Definition GetEndPoint (r : AStarRoutingResult PointD double) : Result PointD :=
  match CHECK_pure (negb (bool_decide (m_routeEdges r = []))) with
  | Crash f => Crash f
  | Ok _ =>
      match last (m_routeEdges r) with
      | Some e => Ok (GetPoint (GetEndJunction e))
      | None => Crash OutOfRange
      end
  end.

(** *** The engine's monad: member state, and a fault that ends the call *)

Definition M (A : Type) : Type :=
  Engine PointD double → Result (A * Engine PointD double).

Definition ret {A} (a : A) : M A := λ e, Ok (a, e).

Definition bind {A B} (m : M A) (k : A → M B) : M B :=
  λ e, match m e with
       | Ok (a, e') => k a e'
       | Crash f => Crash f
       end.

Notation "x <-- m ;; k" := (bind m (λ x, k))
  (at level 100, m at next level, right associativity).
Notation "m ;;; k" := (bind m (λ _, k))
  (at level 100, right associativity).

Definition fail {A} (f : Fault) : M A := λ _, Crash f.

Definition lift {A} (r : Result A) : M A :=
  λ e, match r with Ok a => Ok (a, e) | Crash f => Crash f end.

Definition CHECK (cond : bool) : M unit := lift (CHECK_pure cond).
Definition ASSERT (build : Build) (cond : bool) : M unit :=
  lift (ASSERT_pure build cond).

(** vector::operator[]: past the end the behaviour is undefined. *)
Definition at_ {A} (v : list A) (i : nat) : M A :=
  match v !! i with
  | Some x => ret x
  | None => fail OutOfRange
  end.

(** *** BicycleDirectionsEngine *)

(** BicycleDirectionsEngine(index): every member but m_index is
    default-constructed. *)
Definition BicycleDirectionsEngine_ctor : Engine PointD double :=
  mkEngine ∅ [] None None [].

(** The guard is replaced when there is none or when [mwmId] differs from
    m_mwmIdFeaturesLoaderGuard; the function assigns to the guard only. *)
Definition UpdateFeatureLoaderGuardIfNeeded (mwmId : MwmId) : M unit :=
  λ e,
    if negb (bool_decide (is_Some (m_featuresLoaderGuard e)))
       || bool_decide (mwmId ≠ m_mwmIdFeaturesLoaderGuard e)
    then Ok (tt, mkEngine (e_adjacentEdges e) (e_pathSegments e)
                          (Some (mkGuard mwmId))
                          (m_mwmIdFeaturesLoaderGuard e)
                          (loadersConstructed e ++ [mwmId]))
    else Ok (tt, e).

(** [m_featuresLoaderGuard->GetFeatureByIndex(index, ft)]. *)
Definition loadFeature (featureIndex : N) : M FeatureType :=
  λ e, match m_featuresLoaderGuard e with
       | Some guard => Ok (GetFeatureByIndex guard featureIndex, e)
       | None => Crash OutOfRange
       end.

Definition GetHighwayClass (build : Build) (featureId : FeatureID)
    : M HighwayClass :=
  let mwmId := m_mwmId featureId in
  let featureIndex := m_index featureId in
  UpdateFeatureLoaderGuardIfNeeded mwmId ;;;
  ft <-- loadFeature featureIndex ;;
  let highWayClass := ftypes_GetHighwayClass ft in
  ASSERT build (bool_decide (highWayClass ≠ Error)) ;;;
  ASSERT build (bool_decide (highWayClass ≠ Undefined)) ;;;
  ret highWayClass.

(** LoadPathGeometry(featureId, path, pathSegment): the segment is cleared
    first, so what it held before does not matter. *)
Definition LoadPathGeometry (build : Build) (featureId : FeatureID)
    (path : list PointD) : M (LoadedPathSegment PointD double) :=
  let pathSegment := LoadedPathSegment_Clear in
  let mwmId := m_mwmId featureId in
  if negb (IsValid featureId) then
    ASSERT build false ;;;
    ret pathSegment
  else
    UpdateFeatureLoaderGuardIfNeeded mwmId ;;;
    ft <-- loadFeature (m_index featureId) ;;
    let highwayClass := ftypes_GetHighwayClass ft in
    ASSERT build (bool_decide (highwayClass ≠ Error)) ;;;
    ASSERT build (bool_decide (highwayClass ≠ Undefined)) ;;;
    ret (mkSegment path highwayClass (IsRoundAboutChecker ft) (IsLinkChecker ft)
                   (m_weight pathSegment) (GetName ft) (m_index featureId)).

(** map::insert keeps the entry already under the key. *)
Definition map_insert (key : N) (v : AdjacentEdges double)
    (m : gmap N (AdjacentEdges double)) : gmap N (AdjacentEdges double) :=
  match m !! key with
  | Some _ => m
  | None => <[key := v]> m
  end.

Definition adjacentEdges_insert (key : N) (v : AdjacentEdges double) : M unit :=
  λ e, Ok (tt, mkEngine (map_insert key v (e_adjacentEdges e)) (e_pathSegments e)
                        (m_featuresLoaderGuard e) (m_mwmIdFeaturesLoaderGuard e)
                        (loadersConstructed e)).

(** [m_adjacentEdges[key] = v]. *)
Definition adjacentEdges_assign (key : N) (v : AdjacentEdges double) : M unit :=
  λ e, Ok (tt, mkEngine (<[key := v]> (e_adjacentEdges e)) (e_pathSegments e)
                        (m_featuresLoaderGuard e) (m_mwmIdFeaturesLoaderGuard e)
                        (loadersConstructed e)).

Definition pathSegments_push_back (s : LoadedPathSegment PointD double) : M unit :=
  λ e, Ok (tt, mkEngine (e_adjacentEdges e) (e_pathSegments e ++ [s])
                        (m_featuresLoaderGuard e) (m_mwmIdFeaturesLoaderGuard e)
                        (loadersConstructed e)).

(** [m_adjacentEdges.clear(); m_pathSegments.clear();] *)
Definition clear_members : M unit :=
  λ e, Ok (tt, mkEngine ∅ [] (m_featuresLoaderGuard e)
                        (m_mwmIdFeaturesLoaderGuard e) (loadersConstructed e)).

(** [AStarRoutingResult resultGraph(routeEdges, m_adjacentEdges,
    m_pathSegments);] *)
Definition resultGraph_over (routeEdges : list (Edge PointD))
    : M (AStarRoutingResult PointD double) :=
  λ e, Ok (AStarRoutingResult_ctor routeEdges (e_adjacentEdges e)
                                   (e_pathSegments e), e).

(** The lambda of Generate: one turn at [pathSize - 1] and one ingoing edge
    under key 0. *)
Definition emptyPathWorkaround (pathSize : nat) (turns : list TurnItem)
    : M (list TurnItem) :=
  let turns := turns ++ [mkTurnItem (size_t_pred pathSize) ReachedYourDestination] in
  adjacentEdges_assign 0%N (AdjacentEdges_ctor 1) ;;;
  ret turns.

(** The range-for over [outgoingEdges]: fake edges are passed over, every
    other edge appends a candidate. *)
Fixpoint fillCandidates (build : Build) (outgoingEdges : list (Edge PointD))
    (candidates : list (TurnCandidate double)) : M (list (TurnCandidate double)) :=
  match outgoingEdges with
  | [] => ret candidates
  | edge :: rest =>
      let outFeatureId := GetFeatureId edge in
      if negb (IsValid outFeatureId) then
        fillCandidates build rest candidates
      else
        highwayClass <-- GetHighwayClass build outFeatureId ;;
        fillCandidates build rest
          (candidates ++ [mkTurnCandidate dzero (m_index outFeatureId) highwayClass])
  end.

(** The body of [for (size_t i = 1; i < pathSize; ++i)]. *)
Definition Generate_step (build : Build) (graph : IRoadGraph PointD)
    (path : list (Junction PointD)) (routeEdges : list (Edge PointD))
    (i : nat) : M unit :=
  let pathSize := length path in
  prevJunction <-- at_ path (i - 1) ;;
  currJunction <-- at_ path i ;;
  let outgoingEdges := GetOutgoingEdges graph currJunction in
  let ingoingEdges := GetIngoingEdges graph currJunction in
  let adjacentEdges := AdjacentEdges_ctor (length ingoingEdges) in
  (* Outgoing edge angle is not used for bicycle routing. *)
  let adjacentEdges :=
    mkAdjacentEdges
      (mkTurnCandidates (candidates (m_outgoingTurns adjacentEdges)) false)
      (m_ingoingTurnsCount adjacentEdges) in
  ASSERT build (bool_decide (length routeEdges = pathSize - 1)) ;;;
  inEdge <-- at_ routeEdges (i - 1) ;;
  let inEdgeFeatureId := GetFeatureId inEdge in
  outgoing <-- fillCandidates build outgoingEdges
                 (candidates (m_outgoingTurns adjacentEdges)) ;;
  let adjacentEdges :=
    mkAdjacentEdges
      (mkTurnCandidates outgoing
         (isCandidatesAngleValid (m_outgoingTurns adjacentEdges)))
      (m_ingoingTurnsCount adjacentEdges) in
  pathSegment <--
    (if IsValid inEdgeFeatureId
     then LoadPathGeometry build inEdgeFeatureId
            [GetPoint prevJunction; GetPoint currJunction]
     else ret LoadedPathSegment_Clear) ;;
  adjacentEdges_insert (m_index inEdgeFeatureId) adjacentEdges ;;;
  pathSegments_push_back pathSegment.

Fixpoint Generate_loop (build : Build) (graph : IRoadGraph PointD)
    (path : list (Junction PointD)) (routeEdges : list (Edge PointD))
    (indices : list nat) : M unit :=
  match indices with
  | [] => ret tt
  | i :: rest =>
      Generate_step build graph path routeEdges i ;;;
      Generate_loop build graph path routeEdges rest
  end.

Definition Generate (build : Build) (graph : IRoadGraph PointD)
    (path : list (Junction PointD)) (cancellable : Cancellable)
    : M (Outcome PointD double) :=
  let pathSize := length path in
  CHECK (negb (bool_decide (pathSize = 0))) ;;;
  let times := [] in
  let turns := [] in
  let routeGeometry := [] in
  clear_members ;;;
  if bool_decide (pathSize ≤ 1) then
    ASSERT build false ;;;
    turns <-- emptyPathWorkaround pathSize turns ;;
    ret (DegenerateOutcome (mkOutput times turns routeGeometry))
  else
    let times := CalculateTimes graph path in
    let '(reconstructed, routeEdges) := ReconstructPath graph path cancellable in
    if negb reconstructed then
      turns <-- emptyPathWorkaround pathSize turns ;;
      ret (DegenerateOutcome (mkOutput times turns routeGeometry))
    else if bool_decide (routeEdges = []) then
      ASSERT build false ;;;
      turns <-- emptyPathWorkaround pathSize turns ;;
      ret (DegenerateOutcome (mkOutput times turns routeGeometry))
    else
      adjacentEdges_insert 0%N (AdjacentEdges_ctor 0) ;;;
      Generate_loop build graph path routeEdges (seq 1 (pathSize - 1)) ;;;
      resultGraph <-- resultGraph_over routeEdges ;;
      let '(routeGeometry, turns) := MakeTurnAnnotation resultGraph in
      ret (NormalOutcome resultGraph (mkOutput times turns routeGeometry)).

End Model.

(** ** Path reconstruction *)

Section Reconstruct.

Context {PointD : Type} `{EqDecision PointD}.

#[global] Instance Junction_eq_dec : EqDecision (Junction PointD).
Proof. solve_decision. Defined.

(** Modelled from the spec: IDirectionsEngine::ReconstructPath
    (routing/directions_engine.cpp is not among the sources).  For each
    consecutive pair of junctions the signal is polled, then the outgoing
    edges of the first are searched for one that ends in the second; a
    cancellation or a single miss makes the whole reconstruction fail, and
    what was found so far stays in [routeEdges].  The signal is the answer
    of IsCancelled() at each poll of this call. *)
Fixpoint ReconstructPath_from (graph : IRoadGraph PointD)
    (curr : Junction PointD) (rest : list (Junction PointD))
    (signal : nat → bool) (polls : nat) (routeEdges : list (Edge PointD))
    : bool * list (Edge PointD) :=
  match rest with
  | [] => (true, routeEdges)
  | next :: rest' =>
      if signal polls then (false, routeEdges)
      else
        match find (λ e, bool_decide (GetEndJunction e = next))
                   (GetOutgoingEdges graph curr) with
        | Some e =>
            ReconstructPath_from graph next rest' signal (S polls) (routeEdges ++ [e])
        | None => (false, routeEdges)
        end
  end.

Definition ReconstructPath_spec (graph : IRoadGraph PointD)
    (path : list (Junction PointD)) (signal : nat → bool)
    : bool * list (Edge PointD) :=
  match path with
  | [] => (false, [])
  | curr :: rest => ReconstructPath_from graph curr rest signal 0 []
  end.

End Reconstruct.

(** ** Vocabulary of the statements *)

Section Vocabulary.

Context `{W : Collaborators PointD double FeatureType Cancellable}.

Implicit Types (e : Engine PointD double).

Local Abbreviation M := (@M PointD double).

(** What emptyPathWorkaround leaves behind on cleared members. *)
Definition degenerate_output (times : list (N * double)) (pathSize : nat)
    : GenerateOutput PointD double :=
  mkOutput times [mkTurnItem (size_t_pred pathSize) ReachedYourDestination] [].

Definition degenerate_engine e : Engine PointD double :=
  mkEngine {[ 0%N := AdjacentEdges_ctor 1 ]} [] (m_featuresLoaderGuard e)
           (m_mwmIdFeaturesLoaderGuard e) (loadersConstructed e).

(** The claim's words: the distances of the edges summed in the order of
    the edges, each edge measured from its own start to its own end. *)
Definition great_circle_sum (edges : list (Edge PointD)) : double :=
  foldr (λ edge total,
           dadd total (DistanceOnEarth (GetPoint (GetStartJunction edge))
                                       (GetPoint (GetEndJunction edge))))
        dzero (rev edges).

(** The two collections and the partition remembered beside the guard. *)
Definition frame e e' : Prop :=
  e_adjacentEdges e' = e_adjacentEdges e ∧
  e_pathSegments e' = e_pathSegments e ∧
  m_mwmIdFeaturesLoaderGuard e' = m_mwmIdFeaturesLoaderGuard e.

(** The members once cleared and given the record of the start under 0. *)
Definition sentinel_engine e : Engine PointD double :=
  mkEngine (map_insert 0%N (AdjacentEdges_ctor 0) ∅) []
           (m_featuresLoaderGuard e) (m_mwmIdFeaturesLoaderGuard e)
           (loadersConstructed e).

(** The engine's remembered partition is default-constructed and never
    assigned: this is the state of every engine the program can hold. *)
Definition unassigned e : Prop := m_mwmIdFeaturesLoaderGuard e = None.

(** The road class of a feature, read through a loader of the feature's own
    partition. *)
Definition feature_class (featureId : FeatureID) : HighwayClass :=
  ftypes_GetHighwayClass
    (GetFeatureByIndex (mkGuard (m_mwmId featureId)) (m_index featureId)).

(** The engine after [new Index::FeaturesLoaderGuard(index, mwmId)]. *)
Definition with_loader (mwmId : MwmId) e : Engine PointD double :=
  mkEngine (e_adjacentEdges e) (e_pathSegments e) (Some (mkGuard mwmId))
           (m_mwmIdFeaturesLoaderGuard e) (loadersConstructed e ++ [mwmId]).

(** The candidate an outgoing edge gives rise to. *)
Definition candidate_of (edge : Edge PointD) : TurnCandidate double :=
  mkTurnCandidate dzero (m_index (GetFeatureId edge))
                  (feature_class (GetFeatureId edge)).

Definition real_edge (edge : Edge PointD) : bool := IsValid (GetFeatureId edge).

(** The segment loaded for a traversed edge of a valid feature. *)
Definition segment_of (featureId : FeatureID) (pts : list PointD)
    : LoadedPathSegment PointD double :=
  let ft := GetFeatureByIndex (mkGuard (m_mwmId featureId)) (m_index featureId) in
  mkSegment pts (ftypes_GetHighwayClass ft) (IsRoundAboutChecker ft)
            (IsLinkChecker ft) dzero (GetName ft) (m_index featureId).

(** Two engines that hold the same collections; their guards may differ. *)
Definition agree e1 e2 : Prop :=
  e_adjacentEdges e1 = e_adjacentEdges e2 ∧
  e_pathSegments e1 = e_pathSegments e2 ∧
  unassigned e1 ∧ unassigned e2.

Definition agree_result {A} (r1 r2 : Result (A * Engine PointD double)) : Prop :=
  match r1, r2 with
  | Ok (a1, e1), Ok (a2, e2) => a1 = a2 ∧ agree e1 e2
  | Crash f1, Crash f2 => f1 = f2
  | _, _ => False
  end.

(** A computation that does not look at the guard it starts with. *)
Definition uniform {A} (m : M A) : Prop :=
  ∀ e1 e2, agree e1 e2 → agree_result (m e1) (m e2).

(** The record a round of the loop builds for the junction it stands on:
    the number of its ingoing edges and the candidates of its real outgoing
    edges, the angles marked as not valid. *)
Definition record_for (graph : IRoadGraph PointD) (curr : Junction PointD)
    : AdjacentEdges double :=
  mkAdjacentEdges
    (mkTurnCandidates
       (candidate_of <$> List.filter real_edge (GetOutgoingEdges graph curr))
       false)
    (length (GetIngoingEdges graph curr)).

(** The segment a round of the loop pushes for the edge that enters the
    junction. *)
Definition segment_for (prev curr : Junction PointD) (inEdge : Edge PointD)
    : LoadedPathSegment PointD double :=
  if IsValid (GetFeatureId inEdge)
  then segment_of (GetFeatureId inEdge) [GetPoint prev; GetPoint curr]
  else LoadedPathSegment_Clear.

(** The partitions a round of the loop asks a loader for, in order: those of
    the real outgoing edges, then that of the entering edge if it is real. *)
Definition partitions_for (graph : IRoadGraph PointD) (curr : Junction PointD)
    (inEdge : Edge PointD) : list MwmId :=
  ((λ edge, m_mwmId (GetFeatureId edge))
     <$> List.filter real_edge (GetOutgoingEdges graph curr))
  ++ (if IsValid (GetFeatureId inEdge) then [m_mwmId (GetFeatureId inEdge)] else []).

(** What a round of the loop does: the key it inserts under, the record,
    the segment, and the partitions it resolves. *)
Record Round := mkRound {
  round_key : N;
  round_record : AdjacentEdges double;
  round_segment : LoadedPathSegment PointD double;
  round_partitions : list MwmId;
}.

(** Round [i], which reads path[i - 1], path[i] and routeEdges[i - 1]. *)
Definition round_of (graph : IRoadGraph PointD) (path : list (Junction PointD))
    (routeEdges : list (Edge PointD)) (i : nat) : option Round :=
  prev ← path !! (i - 1);
  curr ← path !! i;
  inEdge ← routeEdges !! (i - 1);
  Some (mkRound (m_index (GetFeatureId inEdge)) (record_for graph curr)
                (segment_for prev curr inEdge)
                (partitions_for graph curr inEdge)).

(** The adjacency map after the rounds, in order. *)
Definition register_rounds (rounds : list Round)
    (m : gmap N (AdjacentEdges double)) : gmap N (AdjacentEdges double) :=
  foldl (λ m r, map_insert (round_key r) (round_record r) m) m rounds.

End Vocabulary.

(** ** A small world to run the engine in

    Points on a line, integer distances, two map partitions.  A feature is
    represented by its highway class: feature [i] of partition [m] has class
    [Road (100 * m + i)]. *)

Definition sample_world : Collaborators Z Z HighwayClass (nat → bool) := {|
  dzero := 0%Z;
  dadd := Z.add;
  DistanceOnEarth := λ a b, Z.abs (b - a);
  angleValidByDefault := true;
  GetFeatureByIndex := λ guard featureIndex,
    match guard_mwmId guard with
    | Some m => Road (100 * m + N.to_nat featureIndex)
    | None => Undefined
    end;
  ftypes_GetHighwayClass := λ ft, ft;
  IsLinkChecker := λ _, false;
  IsRoundAboutChecker := λ _, false;
  GetName := λ _, EmptyString;
  CalculateTimes := λ _ path, imap (λ i j, (N.of_nat i, GetPoint j)) path;
  ReconstructPath := ReconstructPath_spec;
  MakeTurnAnnotation := λ resultGraph,
    (map (λ e, GetPoint (GetEndJunction e)) (m_routeEdges resultGraph),
     [mkTurnItem (Z.of_nat (length (m_pathSegments resultGraph)))
                 ReachedYourDestination]);
|}.

Definition sample_j (x : Z) : Junction Z := mkJunction x.

(** One road, feature 7 of partition 1, runs 0 - 10 - 20; feature 0 of
    partition 2 runs 20 - 30; feature 3 of partition 2 leaves 10 sideways;
    the search has put a fake edge at 10. *)
Definition sample_e01 : Edge Z := mkEdge (mkFeatureID (Some 1) 7) (sample_j 0) (sample_j 10).
Definition sample_e12 : Edge Z := mkEdge (mkFeatureID (Some 1) 7) (sample_j 10) (sample_j 20).
Definition sample_e23 : Edge Z := mkEdge (mkFeatureID (Some 2) 0) (sample_j 20) (sample_j 30).
Definition sample_side : Edge Z := mkEdge (mkFeatureID (Some 2) 3) (sample_j 10) (sample_j 11).
Definition sample_fake : Edge Z := mkEdge (mkFeatureID None 0) (sample_j 10) (sample_j 15).

Definition sample_graph : IRoadGraph Z := {|
  GetOutgoingEdges := λ j,
    if bool_decide (GetPoint j = 0%Z) then [sample_e01]
    else if bool_decide (GetPoint j = 10%Z) then [sample_fake; sample_e12; sample_side]
    else if bool_decide (GetPoint j = 20%Z) then [sample_e23]
    else [];
  GetIngoingEdges := λ j,
    if bool_decide (GetPoint j = 10%Z) then [sample_e01]
    else if bool_decide (GetPoint j = 20%Z) then [sample_e12]
    else if bool_decide (GetPoint j = 30%Z) then [sample_e23]
    else [];
|}.

Definition never_cancelled : nat → bool := λ _, false.

(** The signal fires at the second poll. *)
Definition cancelled_at_1 : nat → bool := λ k, bool_decide (k = 1).

Definition sample_engine : Engine Z Z := BicycleDirectionsEngine_ctor.

Definition sample_path4 : list (Junction Z) :=
  [sample_j 0; sample_j 10; sample_j 20; sample_j 30].

(** The adapter of a one-edge route whose map holds the start record only. *)
Definition sample_adapter : AStarRoutingResult Z Z :=
  AStarRoutingResult_ctor (W := sample_world) [sample_e01]
    {[ 0%N := AdjacentEdges_ctor (W := sample_world) 0 ]} [].

(** An absent key is told apart from a present record: the two lookups
    do not give the same answer. *)
Definition absent_key_distinguishable (build : Build)
    (r : AStarRoutingResult Z Z) (absent present : N) (p q : Z)
    (outgoingTurns : TurnCandidates Z) : Prop :=
  m_adjacentEdges r !! absent = None →
  is_Some (m_adjacentEdges r !! present) →
  GetPossibleTurns build r absent p q outgoingTurns
  ≠ GetPossibleTurns build r present p q outgoingTurns.

(** The sample world with a reconstruction that hands back the first edge
    only, whatever the path. *)
Definition short_world : Collaborators Z Z HighwayClass (nat → bool) := {|
  dzero := dzero (Collaborators := sample_world);
  dadd := dadd (Collaborators := sample_world);
  DistanceOnEarth := DistanceOnEarth (Collaborators := sample_world);
  angleValidByDefault := angleValidByDefault (Collaborators := sample_world);
  GetFeatureByIndex := GetFeatureByIndex (Collaborators := sample_world);
  ftypes_GetHighwayClass := ftypes_GetHighwayClass (Collaborators := sample_world);
  IsLinkChecker := IsLinkChecker (Collaborators := sample_world);
  IsRoundAboutChecker := IsRoundAboutChecker (Collaborators := sample_world);
  GetName := GetName (Collaborators := sample_world);
  CalculateTimes := CalculateTimes (Collaborators := sample_world);
  ReconstructPath := λ _ _ _, (true, [sample_e01]);
  MakeTurnAnnotation := MakeTurnAnnotation (Collaborators := sample_world);
|}.

(** An engine that has worked before: a record and a segment left in its
    collections, and a guard on partition 9. *)
Definition used_engine : Engine Z Z :=
  mkEngine {[ 5%N := AdjacentEdges_ctor (W := sample_world) 3 ]}
           [LoadedPathSegment_Clear (W := sample_world)]
           (Some (mkGuard (Some 9))) None [Some 9].

(** * Properties *)

Section Properties.

Context `{W : Collaborators PointD double FeatureType Cancellable}.

Implicit Types (e : Engine PointD double) (graph : IRoadGraph PointD).
Implicit Types (path : list (Junction PointD)) (build : Build).

Local Abbreviation M := (@M PointD double).

(** *** Running the monad *)

Lemma bind_Ok {A B} (m : M A) (k : A → M B) e b e' :
  bind m k e = Ok (b, e') ↔ ∃ a e1, m e = Ok (a, e1) ∧ k a e1 = Ok (b, e').
Proof.
  unfold bind. split.
  - destruct (m e) as [[a e1]|f]; [|discriminate]. intros Hk. by exists a, e1.
  - intros (a & e1 & -> & Hk). exact Hk.
Qed.

Lemma bind_Crash {A B} (m : M A) (k : A → M B) e f :
  bind m k e = Crash f ↔
  m e = Crash f ∨ ∃ a e1, m e = Ok (a, e1) ∧ k a e1 = Crash f.
Proof.
  unfold bind. split.
  - destruct (m e) as [[a e1]|f']; [|intros [= ->]; by left].
    intros Hk. right. by exists a, e1.
  - intros [-> | (a & e1 & -> & Hk)]; done.
Qed.

Lemma ASSERT_Release cond e : ASSERT Release cond e = Ok (tt, e).
Proof. reflexivity. Qed.

Lemma ASSERT_Ok build cond e u e' :
  ASSERT build cond e = Ok (u, e') → e' = e ∧ (build = Debug → cond = true).
Proof.
  unfold ASSERT, lift, ASSERT_pure.
  destruct build, cond; intros [= <-]; naive_solver.
Qed.

Lemma at_Ok {A} (v : list A) i e x e' :
  at_ v i e = Ok (x, e') ↔ v !! i = Some x ∧ e' = e.
Proof.
  unfold at_. destruct (v !! i) as [y|]; cbn.
  - split; [intros [= -> ->]; done | intros [[= ->] ->]; done].
  - split; [discriminate | intros [[=] _]].
Qed.

(** *** Short paths and the degenerate result *)

Lemma Generate_empty_path build graph (c : Cancellable) e :
  Generate build graph [] c e = Crash CheckFailed.
Proof. reflexivity. Qed.

Lemma Generate_single build graph j (c : Cancellable) e :
  Generate build graph [j] c e =
  match build with
  | Debug => Crash AssertFailed
  | Release => Ok (DegenerateOutcome (degenerate_output [] 1), degenerate_engine e)
  end.
Proof. destruct build; reflexivity. Qed.

Lemma length_one {A} (l : list A) : length l = 1 → ∃ x, l = [x].
Proof. destruct l as [|x [|y l]]; try discriminate. by exists x. Qed.

(** C1 (as amended).  A single-vertex path, in a release build, is answered
    with the degenerate single-turn result; the empty path fails the entry
    check CHECK_NOT_EQUAL(pathSize, 0) in every build, and in a debug build
    the single-vertex path is stopped by ASSERT(false, (pathSize)). *)
Theorem Generate_input_shape graph path (c : Cancellable) e :
  length path ≤ 1 →
  (path = [] ∧ ∀ build, Generate build graph path c e = Crash CheckFailed) ∨
  (length path = 1 ∧
   Generate Debug graph path c e = Crash AssertFailed ∧
   ∃ out e', Generate Release graph path c e = Ok (DegenerateOutcome out, e') ∧
             length (out_turns out) = 1 ∧
             (∀ t, t ∈ out_turns out → turn_direction t = ReachedYourDestination)).
Proof.
  intros Hlen. destruct path as [|j [|j' path]]; cbn in Hlen; [| |lia].
  - left. split; [done|]. intros build. apply Generate_empty_path.
  - right. split; [done|]. split; [apply (Generate_single Debug)|].
    eexists _, _. split; [apply (Generate_single Release)|].
    split; [done|]. cbn. by intros t ->%list_elem_of_singleton.
Qed.

(** C7 (as amended).  In a release build, a path of exactly one junction
    gives a turn list of exactly one entry, at index 0 and tagged
    reached-destination, and an adjacency map of exactly one record, under
    key 0, with one ingoing edge and no outgoing candidate.  In a debug
    build ASSERT(false, (pathSize)) ends the call before any output. *)
Theorem Generate_single_junction graph path (c : Cancellable) e :
  length path = 1 →
  Generate Debug graph path c e = Crash AssertFailed ∧
  ∃ out e' a,
    Generate Release graph path c e = Ok (DegenerateOutcome out, e') ∧
    out_turns out = [mkTurnItem 0 ReachedYourDestination] ∧
    size (e_adjacentEdges e') = 1 ∧
    e_adjacentEdges e' !! 0%N = Some a ∧
    m_ingoingTurnsCount a = 1 ∧
    candidates (m_outgoingTurns a) = [].
Proof.
  intros [j ->]%length_one. split; [apply (Generate_single Debug)|].
  eexists _, _, _. split; [apply (Generate_single Release)|].
  split; [reflexivity|]. cbn.
  split; [apply map_size_singleton|].
  split; [apply lookup_singleton_eq|]. done.
Qed.

(** *** The adapter *)

Lemma great_circle_sum_snoc edges edge :
  great_circle_sum (edges ++ [edge]) =
  dadd (great_circle_sum edges)
       (DistanceOnEarth (GetPoint (GetStartJunction edge))
                        (GetPoint (GetEndJunction edge))).
Proof. unfold great_circle_sum. by rewrite rev_unit. Qed.

(** C9.  The length reported by the adapter is the sum, over the traversed
    edges in order, of the distance on the earth between each edge's own
    start point and end point; the junction path does not enter into it.
    (It holds for the empty sequence too, where both sides are 0.) *)
Theorem GetPathLength_great_circle_sum (routeEdges : list (Edge PointD))
    adjacentEdges pathSegments :
  GetPathLength (AStarRoutingResult_ctor routeEdges adjacentEdges pathSegments)
  = great_circle_sum routeEdges.
Proof.
  unfold GetPathLength, AStarRoutingResult_ctor; cbn.
  induction routeEdges as [|edge edges IH] using rev_ind; [done|].
  rewrite fold_left_app, great_circle_sum_snoc; cbn. by rewrite IH.
Qed.

Lemma GetPossibleTurns_present build (r : AStarRoutingResult PointD double)
    nodeId p q outgoingTurns a :
  m_adjacentEdges r !! nodeId = Some a →
  GetPossibleTurns build r nodeId p q outgoingTurns =
  Ok (m_ingoingTurnsCount a,
      mkTurnCandidates (candidates (m_outgoingTurns a))
                       (isCandidatesAngleValid outgoingTurns)).
Proof. unfold GetPossibleTurns. by intros ->. Qed.

Lemma GetPossibleTurns_absent build (r : AStarRoutingResult PointD double)
    nodeId p q outgoingTurns :
  m_adjacentEdges r !! nodeId = None →
  GetPossibleTurns build r nodeId p q outgoingTurns =
  match build with
  | Debug => Crash AssertFailed
  | Release => Ok (0, mkTurnCandidates [] (isCandidatesAngleValid outgoingTurns))
  end.
Proof. unfold GetPossibleTurns. intros ->. by destruct build. Qed.

(** C3 (as amended).  A key that is present gives that entry's ingoing count
    and outgoing candidates.  A key that is absent fails ASSERT(false) in a
    debug build; in a release build the function, which returns void, leaves
    count 0 and no candidates, which is what a present record with no
    ingoing edge and no candidate (the record under key 0) gives. *)
Theorem GetPossibleTurns_lookup build (r : AStarRoutingResult PointD double)
    nodeId p q outgoingTurns :
  (∀ a, m_adjacentEdges r !! nodeId = Some a →
        ∃ turns, GetPossibleTurns build r nodeId p q outgoingTurns
                 = Ok (m_ingoingTurnsCount a, turns) ∧
                 candidates turns = candidates (m_outgoingTurns a)) ∧
  (m_adjacentEdges r !! nodeId = None →
   GetPossibleTurns Debug r nodeId p q outgoingTurns = Crash AssertFailed ∧
   GetPossibleTurns Release r nodeId p q outgoingTurns
   = Ok (0, mkTurnCandidates [] (isCandidatesAngleValid outgoingTurns)) ∧
   ∀ key routeEdges pathSegments,
     GetPossibleTurns Release r nodeId p q outgoingTurns =
     GetPossibleTurns Release
       (AStarRoutingResult_ctor routeEdges {[ key := AdjacentEdges_ctor 0 ]}
                                pathSegments)
       key p q outgoingTurns).
Proof.
  split.
  - intros a Ha. eexists. split; [by apply GetPossibleTurns_present|done].
  - intros Hnone. split; [by apply (GetPossibleTurns_absent Debug)|].
    split; [by apply (GetPossibleTurns_absent Release)|].
    intros key routeEdges pathSegments.
    rewrite (GetPossibleTurns_absent Release) by done.
    symmetry. erewrite GetPossibleTurns_present;
      [|cbn; apply lookup_singleton_eq].
    done.
Qed.

(** *** What the loader calls leave untouched *)

Lemma frame_refl e : frame e e.
Proof. by repeat split. Qed.

Lemma frame_trans e1 e2 e3 : frame e1 e2 → frame e2 e3 → frame e1 e3.
Proof. unfold frame. intros (-> & -> & ->) (-> & -> & ->). done. Qed.

Lemma Update_Ok mwmId e :
  ∃ e', UpdateFeatureLoaderGuardIfNeeded mwmId e = Ok (tt, e') ∧
        frame e e' ∧ is_Some (m_featuresLoaderGuard e').
Proof.
  unfold UpdateFeatureLoaderGuardIfNeeded.
  destruct (negb _ || _) eqn:Hc.
  - eexists. split; [done|]. split; [by repeat split|]. by eexists.
  - exists e. split; [done|]. split; [apply frame_refl|].
    apply orb_false_iff in Hc as [Hg _].
    apply negb_false_iff, bool_decide_eq_true in Hg. done.
Qed.

(** The partition remembered beside the guard is never assigned. *)
Lemma Update_keeps_mwmId mwmId e u e' :
  UpdateFeatureLoaderGuardIfNeeded mwmId e = Ok (u, e') →
  m_mwmIdFeaturesLoaderGuard e' = m_mwmIdFeaturesLoaderGuard e.
Proof.
  destruct (Update_Ok mwmId e) as (e1 & -> & (_ & _ & Hid) & _).
  by intros [= _ <-].
Qed.

Lemma loadFeature_guarded featureIndex e :
  is_Some (m_featuresLoaderGuard e) →
  ∃ ft, loadFeature featureIndex e = Ok (ft, e).
Proof. intros [g Hg]. unfold loadFeature. rewrite Hg. by eexists. Qed.

Lemma loadFeature_Ok featureIndex e ft e' :
  loadFeature featureIndex e = Ok (ft, e') → e' = e.
Proof.
  unfold loadFeature. destruct (m_featuresLoaderGuard e); [|discriminate].
  by intros [= _ <-].
Qed.

Lemma GetHighwayClass_frame build featureId e c e' :
  GetHighwayClass build featureId e = Ok (c, e') → frame e e'.
Proof.
  unfold GetHighwayClass. intros H.
  apply bind_Ok in H as (u & e1 & HU & H).
  apply bind_Ok in H as (ft & e2 & HL & H).
  apply bind_Ok in H as (? & e3 & HA1 & H).
  apply bind_Ok in H as (? & e4 & HA2 & H).
  apply loadFeature_Ok in HL as ->.
  apply ASSERT_Ok in HA1 as [-> _]. apply ASSERT_Ok in HA2 as [-> _].
  injection H as _ <-.
  destruct (Update_Ok (m_mwmId featureId) e) as (e1' & HU' & Hf & _).
  rewrite HU' in HU. by simplify_eq.
Qed.

Lemma GetHighwayClass_Release featureId e :
  ∃ c e', GetHighwayClass Release featureId e = Ok (c, e').
Proof.
  unfold GetHighwayClass, bind.
  destruct (Update_Ok (m_mwmId featureId) e) as (e1 & -> & _ & Hg).
  destruct (loadFeature_guarded (m_index featureId) e1 Hg) as (ft & ->).
  cbn. by eexists _, _.
Qed.

Lemma LoadPathGeometry_frame build featureId pts e s e' :
  LoadPathGeometry build featureId pts e = Ok (s, e') → frame e e'.
Proof.
  unfold LoadPathGeometry. destruct (negb (IsValid featureId)); intros H.
  - apply bind_Ok in H as (? & e1 & HA & H).
    apply ASSERT_Ok in HA as [-> _]. injection H as _ <-. apply frame_refl.
  - apply bind_Ok in H as (u & e1 & HU & H).
    apply bind_Ok in H as (ft & e2 & HL & H).
    apply bind_Ok in H as (? & e3 & HA1 & H).
    apply bind_Ok in H as (? & e4 & HA2 & H).
    apply loadFeature_Ok in HL as ->.
    apply ASSERT_Ok in HA1 as [-> _]. apply ASSERT_Ok in HA2 as [-> _].
    injection H as _ <-.
    destruct (Update_Ok (m_mwmId featureId) e) as (e1' & HU' & Hf & _).
    rewrite HU' in HU. by simplify_eq.
Qed.

Lemma LoadPathGeometry_Release featureId pts e :
  ∃ s e', LoadPathGeometry Release featureId pts e = Ok (s, e').
Proof.
  unfold LoadPathGeometry. destruct (negb (IsValid featureId)).
  - by eexists _, _.
  - unfold bind.
    destruct (Update_Ok (m_mwmId featureId) e) as (e1 & -> & _ & Hg).
    destruct (loadFeature_guarded (m_index featureId) e1 Hg) as (ft & ->).
    cbn. by eexists _, _.
Qed.

Lemma fillCandidates_frame build outgoingEdges cands e cands' e' :
  fillCandidates build outgoingEdges cands e = Ok (cands', e') → frame e e'.
Proof.
  revert cands e. induction outgoingEdges as [|edge rest IH]; intros cands e; cbn.
  - intros [= _ <-]. apply frame_refl.
  - destruct (negb (IsValid (GetFeatureId edge))); [apply IH|].
    intros H. apply bind_Ok in H as (c & e1 & HG & H).
    eapply frame_trans; [by eapply GetHighwayClass_frame|by eapply IH].
Qed.

Lemma fillCandidates_Release outgoingEdges cands e :
  ∃ cands' e', fillCandidates Release outgoingEdges cands e = Ok (cands', e').
Proof.
  revert cands e. induction outgoingEdges as [|edge rest IH]; intros cands e; cbn.
  - by eexists _, _.
  - destruct (negb (IsValid (GetFeatureId edge))); [apply IH|].
    unfold bind.
    destruct (GetHighwayClass_Release (GetFeatureId edge) e) as (c & e1 & ->).
    apply IH.
Qed.

(** *** Generate on a path of two junctions or more *)

Lemma Generate_long build graph path (c : Cancellable) e :
  2 ≤ length path →
  Generate build graph path c e =
  let times := CalculateTimes graph path in
  let degenerate :=
    Ok (DegenerateOutcome (degenerate_output times (length path)),
        degenerate_engine e) in
  match ReconstructPath graph path c with
  | (false, _) => degenerate
  | (true, []) =>
      match build with Debug => Crash AssertFailed | Release => degenerate end
  | (true, routeEdges) =>
      match Generate_loop build graph path routeEdges
                          (seq 1 (length path - 1)) (sentinel_engine e) with
      | Ok (_, e') =>
          let resultGraph :=
            AStarRoutingResult_ctor routeEdges (e_adjacentEdges e')
                                    (e_pathSegments e') in
          Ok (NormalOutcome resultGraph
                (mkOutput times (MakeTurnAnnotation resultGraph).2
                                (MakeTurnAnnotation resultGraph).1), e')
      | Crash f => Crash f
      end
  end.
Proof.
  intros Hlen. unfold Generate.
  rewrite (bool_decide_eq_false_2 (length path = 0)) by lia.
  rewrite (bool_decide_eq_false_2 (length path ≤ 1)) by lia.
  destruct (ReconstructPath graph path c) as [[|] [|edge edges]];
    try reflexivity.
  - by destruct build.
  - cbn. change (mkEngine _ _ _ _ _) with (sentinel_engine e).
    unfold bind at 1.
    destruct (Generate_loop _ _ _ _ _ _) as [[[] e']|f]; [|done].
    unfold bind, resultGraph_over. by destruct (MakeTurnAnnotation _).
Qed.

(** When the reconstruction reports a failure, whatever it has left in
    [routeEdges], Generate answers with the degenerate result. *)
Lemma Generate_reconstruct_failed build graph path (c : Cancellable) e :
  2 ≤ length path →
  (ReconstructPath graph path c).1 = false →
  Generate build graph path c e =
  Ok (DegenerateOutcome (degenerate_output (CalculateTimes graph path) (length path)),
      degenerate_engine e).
Proof.
  intros Hlen Hfail. rewrite Generate_long by done.
  destruct (ReconstructPath graph path c) as [[|] edges]; [discriminate|done].
Qed.

Lemma Generate_Normal_inv build graph path (c : Cancellable) e rg out e' :
  Generate build graph path c e = Ok (NormalOutcome rg out, e') →
  2 ≤ length path ∧
  ReconstructPath graph path c = (true, m_routeEdges rg) ∧
  m_routeEdges rg ≠ [] ∧
  Generate_loop build graph path (m_routeEdges rg)
                (seq 1 (length path - 1)) (sentinel_engine e) = Ok (tt, e') ∧
  m_adjacentEdges rg = e_adjacentEdges e' ∧
  m_pathSegments rg = e_pathSegments e'.
Proof.
  intros H.
  assert (2 ≤ length path) as Hlen.
  { destruct path as [|j [|j' path]]; cbn; [| |lia].
    - by rewrite Generate_empty_path in H.
    - rewrite Generate_single in H. by destruct build. }
  split; [done|]. rewrite Generate_long in H by done. cbn zeta in H.
  destruct (ReconstructPath graph path c) as [[|] [|edge edges]];
    [by destruct build| |done|done].
  destruct (Generate_loop _ _ _ _ _ _) as [[[] e1]|f] eqn:Hloop; [|done].
  injection H as <- _ <-. cbn. done.
Qed.

(** *** The loop over the junctions *)

Lemma map_insert_keeps key (v : AdjacentEdges double) m k' v' :
  m !! k' = Some v' → map_insert key v m !! k' = Some v'.
Proof.
  unfold map_insert. destruct (m !! key) eqn:Hk; [done|]. intros H.
  rewrite lookup_insert_ne; [done|]. intros ->. congruence.
Qed.

Lemma map_insert_dom key (v : AdjacentEdges double) m :
  dom (map_insert key v m) = dom m ∪ {[ key ]}.
Proof.
  unfold map_insert. destruct (m !! key) eqn:Hk.
  - assert (key ∈ dom m) by (apply elem_of_dom; eauto). set_solver.
  - rewrite dom_insert_L. set_solver.
Qed.

Lemma Generate_step_Ok build graph path routeEdges i e u e' :
  Generate_step build graph path routeEdges i e = Ok (u, e') →
  ∃ inEdge a s,
    routeEdges !! (i - 1) = Some inEdge ∧
    e_adjacentEdges e' =
      map_insert (m_index (GetFeatureId inEdge)) a (e_adjacentEdges e) ∧
    e_pathSegments e' = e_pathSegments e ++ [s] ∧
    m_mwmIdFeaturesLoaderGuard e' = m_mwmIdFeaturesLoaderGuard e.
Proof.
  unfold Generate_step. cbv zeta. intros H.
  apply bind_Ok in H as (prev & e1 & [_ ->]%at_Ok & H).
  apply bind_Ok in H as (curr & e2 & [_ ->]%at_Ok & H).
  apply bind_Ok in H as (? & e3 & [-> _]%ASSERT_Ok & H).
  apply bind_Ok in H as (inEdge & e4 & [Hin ->]%at_Ok & H).
  apply bind_Ok in H as (outgoing & e5 & Hfill%fillCandidates_frame & H).
  apply bind_Ok in H as (s & e6 & Hseg & H).
  assert (frame e5 e6) as Hload.
  { destruct (IsValid (GetFeatureId inEdge)).
    - by eapply LoadPathGeometry_frame.
    - injection Hseg as _ <-. apply frame_refl. }
  destruct (frame_trans _ _ _ Hfill Hload) as (Ha & Hs & Hid).
  apply bind_Ok in H as (? & e7 & Hins & H).
  injection Hins as _ <-. injection H as _ <-. cbn.
  eexists inEdge, _, s. rewrite Ha, Hs, Hid. done.
Qed.

Lemma Generate_step_Release graph path routeEdges i e :
  is_Some (path !! (i - 1)) → is_Some (path !! i) →
  is_Some (routeEdges !! (i - 1)) →
  ∃ e', Generate_step Release graph path routeEdges i e = Ok (tt, e').
Proof.
  intros [prev Hprev] [curr Hcurr] [inEdge Hin].
  unfold Generate_step, bind, at_. cbv zeta. rewrite Hprev, Hcurr. cbn.
  rewrite Hin. cbn.
  destruct (fillCandidates_Release (GetOutgoingEdges graph curr) [] e)
    as (outgoing & e1 & ->).
  destruct (IsValid (GetFeatureId inEdge)).
  - destruct (LoadPathGeometry_Release (GetFeatureId inEdge)
                [GetPoint prev; GetPoint curr] e1) as (s & e2 & ->).
    by eexists.
  - by eexists.
Qed.

Lemma Generate_loop_Ok build graph path routeEdges indices e u e' :
  Generate_loop build graph path routeEdges indices e = Ok (u, e') →
  length (e_pathSegments e') = length (e_pathSegments e) + length indices ∧
  m_mwmIdFeaturesLoaderGuard e' = m_mwmIdFeaturesLoaderGuard e ∧
  (∀ k v, e_adjacentEdges e !! k = Some v → e_adjacentEdges e' !! k = Some v) ∧
  ∃ inEdges,
    Forall2 (λ i edge, routeEdges !! (i - 1) = Some edge) indices inEdges ∧
    dom (e_adjacentEdges e') =
      dom (e_adjacentEdges e)
      ∪ list_to_set ((λ edge, m_index (GetFeatureId edge)) <$> inEdges).
Proof.
  revert e. induction indices as [|i rest IH]; intros e; cbn.
  - intros [= _ <-]. repeat split; [lia|done|].
    exists []. split; [constructor|]. cbn. set_solver.
  - intros H. apply bind_Ok in H as (? & e1 & Hstep & H).
    apply Generate_step_Ok in Hstep as (inEdge & a & s & Hin & Ha & Hs & Hid).
    apply IH in H as (Hlen & Hid' & Hkeep & inEdges & Hall & Hdom).
    split; [rewrite Hlen, Hs, length_app; cbn; lia|].
    split; [congruence|]. split.
    + intros k v Hk. apply Hkeep. rewrite Ha. by apply map_insert_keeps.
    + exists (inEdge :: inEdges). split; [by constructor|].
      rewrite Hdom, Ha, map_insert_dom. cbn. set_solver.
Qed.

Lemma Generate_loop_Release graph path routeEdges indices e :
  (∀ i, i ∈ indices →
        is_Some (path !! (i - 1)) ∧ is_Some (path !! i) ∧
        is_Some (routeEdges !! (i - 1))) →
  ∃ e', Generate_loop Release graph path routeEdges indices e = Ok (tt, e').
Proof.
  revert e. induction indices as [|i rest IH]; intros e Hin; cbn.
  - by eexists.
  - destruct (Hin i) as (Hp & Hc & He); [set_solver|].
    destruct (Generate_step_Release graph path routeEdges i e Hp Hc He)
      as (e1 & Hstep).
    unfold bind. rewrite Hstep. apply IH. intros j Hj. apply Hin. set_solver.
Qed.

(** The edges read by the loop over [1 .. n] are the first [n] edges. *)
Lemma inEdges_all (routeEdges inEdges : list (Edge PointD)) n :
  Forall2 (λ i edge, routeEdges !! (i - 1) = Some edge) (seq 1 n) inEdges →
  length routeEdges = n →
  inEdges = routeEdges.
Proof.
  intros Hall Hlen. pose proof (Forall2_length _ _ _ Hall) as Hlen'.
  rewrite length_seq in Hlen'.
  apply list_eq. intros j. destruct (decide (j < n)) as [Hj|Hj].
  - assert (seq 1 n !! j = Some (1 + j)) as Hseq by by apply lookup_seq_lt.
    destruct (Forall2_lookup_l _ _ _ _ _ Hall Hseq) as (edge & -> & Hedge).
    rewrite <- Hedge. f_equal. lia.
  - rewrite !lookup_ge_None_2; [done|lia|lia].
Qed.

Lemma sentinel_lookup e :
  e_adjacentEdges (sentinel_engine e) !! 0%N = Some (AdjacentEdges_ctor 0).
Proof. cbn. unfold map_insert. rewrite lookup_empty. apply lookup_insert_eq. Qed.

Lemma sentinel_dom e : dom (e_adjacentEdges (sentinel_engine e)) = {[ 0%N ]}.
Proof. cbn. rewrite map_insert_dom, dom_empty_L. set_solver. Qed.

(** C4 (as amended).  When the reconstruction has succeeded with one edge
    per consecutive pair of junctions, Generate (which in a release build
    then always reaches the adapter) produces as many segments as there are
    traversed edges, and an adjacency map whose keys are 0 and the feature
    indices of the traversed edges: one entry per distinct index, not one
    per edge, since map::insert keeps the entry already under a key.  Key 0
    always holds the record of the start, also when an edge has feature
    index 0. *)
Theorem Generate_normal_shape graph path (c : Cancellable) e routeEdges :
  ReconstructPath graph path c = (true, routeEdges) →
  routeEdges ≠ [] →
  length routeEdges = length path - 1 →
  (∃ rg out e', Generate Release graph path c e = Ok (NormalOutcome rg out, e')) ∧
  ∀ build rg out e',
    Generate build graph path c e = Ok (NormalOutcome rg out, e') →
    m_routeEdges rg = routeEdges ∧
    length (m_pathSegments rg) = length routeEdges ∧
    dom (m_adjacentEdges rg) =
      {[ 0%N ]} ∪ list_to_set ((λ edge, m_index (GetFeatureId edge)) <$> routeEdges) ∧
    m_adjacentEdges rg !! 0%N = Some (AdjacentEdges_ctor 0).
Proof.
  intros HR Hne Hlen. split.
  - assert (2 ≤ length path) as Hpath.
    { destruct routeEdges; [done|]. cbn in Hlen. lia. }
    rewrite Generate_long by done. cbn zeta. rewrite HR.
    destruct routeEdges as [|edge edges]; [done|].
    destruct (Generate_loop_Release graph path (edge :: edges)
                (seq 1 (length path - 1)) (sentinel_engine e)) as (e' & ->).
    { intros i [Hi1 Hi2]%elem_of_seq.
      repeat split; apply lookup_lt_is_Some; lia. }
    by eexists _, _, _.
  - intros build rg out e' H.
    apply Generate_Normal_inv in H as (Hpath & HR' & _ & Hloop & Hadj & Hseg).
    rewrite HR in HR'. injection HR' as HR'. rewrite <- HR' in *.
    apply Generate_loop_Ok in Hloop
      as (Hsegs & _ & Hkeep & inEdges & Hall & Hdom).
    apply inEdges_all in Hall as ->; [|done].
    split; [done|]. split.
    { rewrite Hseg, Hsegs, length_seq. cbn. lia. }
    split.
    { by rewrite Hadj, Hdom, sentinel_dom. }
    rewrite Hadj. apply Hkeep, sentinel_lookup.
Qed.

(** C10.  The adapter handed to MakeTurnAnnotation is built only after a
    reconstruction that succeeded with at least one edge, so GetStartPoint
    and GetEndPoint pass their CHECK on it.  When the reconstruction fails,
    or succeeds with no edge, no adapter is built: Generate leaves through
    emptyPathWorkaround (in a debug build ASSERT(false) stands before it in
    the branch of the empty sequence). *)
Theorem Generate_adapter_nonempty build graph path (c : Cancellable) e :
  (∀ rg out e',
     Generate build graph path c e = Ok (NormalOutcome rg out, e') →
     ReconstructPath graph path c = (true, m_routeEdges rg) ∧
     m_routeEdges rg ≠ [] ∧
     (∃ p, GetStartPoint rg = Ok p) ∧ (∃ p, GetEndPoint rg = Ok p)) ∧
  (2 ≤ length path →
   (ReconstructPath graph path c).1 = false ∨ (ReconstructPath graph path c).2 = [] →
   Generate build graph path c e =
   match build, (ReconstructPath graph path c).1 with
   | Debug, true => Crash AssertFailed
   | _, _ =>
       Ok (DegenerateOutcome
             (degenerate_output (CalculateTimes graph path) (length path)),
           degenerate_engine e)
   end).
Proof.
  split.
  - intros rg out e' H.
    apply Generate_Normal_inv in H as (_ & HR & Hne & _).
    split; [done|]. split; [done|].
    unfold GetStartPoint, GetEndPoint.
    destruct (m_routeEdges rg) as [|edge edges] eqn:Hedges; [done|].
    split; [by eexists|].
    destruct (last (edge :: edges)) as [l|] eqn:Hlast; [by eexists|].
    by apply last_None in Hlast.
  - intros Hlen Hfail. rewrite Generate_long by done. cbn zeta.
    destruct (ReconstructPath graph path c) as [[|] edges]; cbn in *.
    + destruct Hfail as [Hf|Hf]; [done|]. rewrite Hf. by destruct build.
    + by destruct build.
Qed.

(** *** Resolving attributes *)

Lemma Update_valid featureId e :
  unassigned e → IsValid featureId = true →
  UpdateFeatureLoaderGuardIfNeeded (m_mwmId featureId) e
  = Ok (tt, with_loader (m_mwmId featureId) e).
Proof.
  unfold unassigned, IsValid, UpdateFeatureLoaderGuardIfNeeded.
  intros He Hvalid. destruct (m_mwmId featureId) as [m|]; [|done].
  rewrite He, (bool_decide_eq_true_2 (Some m ≠ None)) by done.
  rewrite orb_true_r. unfold with_loader. by rewrite He.
Qed.

Lemma GetHighwayClass_valid build featureId e :
  unassigned e → IsValid featureId = true →
  GetHighwayClass build featureId e =
  match ASSERT_pure build (proper_class (feature_class featureId)) with
  | Ok _ => Ok (feature_class featureId, with_loader (m_mwmId featureId) e)
  | Crash f => Crash f
  end.
Proof.
  intros He Hvalid. unfold GetHighwayClass, bind.
  rewrite Update_valid by done. cbn.
  fold (feature_class featureId). unfold proper_class.
  destruct build; cbn; [|done].
  by destruct (feature_class featureId).
Qed.

Lemma fillCandidates_from build outgoingEdges cands e :
  unassigned e →
  (build = Debug →
   ∀ edge, edge ∈ outgoingEdges → real_edge edge = true →
           proper_class (feature_class (GetFeatureId edge)) = true) →
  ∃ e', fillCandidates build outgoingEdges cands e
        = Ok (cands ++ (candidate_of <$> List.filter real_edge outgoingEdges), e') ∧
        frame e e'.
Proof.
  revert cands e. induction outgoingEdges as [|edge rest IH];
    intros cands e He Hproper; cbn.
  - exists e. by rewrite app_nil_r.
  - fold (real_edge edge). destruct (real_edge edge) eqn:Hreal; cbn.
    + unfold bind. rewrite GetHighwayClass_valid by done.
      assert (ASSERT_pure build (proper_class (feature_class (GetFeatureId edge)))
              = Ok tt) as ->.
      { destruct build; [|done]. cbn. rewrite Hproper; [done|done|set_solver|done]. }
      destruct (IH (cands ++ [candidate_of edge])
                   (with_loader (m_mwmId (GetFeatureId edge)) e))
        as (e' & Hfill & Hf); [done| |].
      { intros Hb edge' Hin. apply Hproper; [done|set_solver]. }
      exists e'. rewrite <- app_assoc in Hfill. split; [exact Hfill|].
      eapply frame_trans; [|exact Hf]. by repeat split.
    + apply IH; [done|]. intros Hb edge' Hin. apply Hproper; [done|set_solver].
Qed.

(** The range-for over the outgoing edges of a junction, started on
    the empty candidate list as Generate starts it, ends with exactly one
    candidate per outgoing edge whose feature identifier is valid, in the
    order of the edges, carrying that edge's feature index and road class,
    and with none for a fake edge.  (A debug build asserts that each class
    is a proper one.) *)
Theorem fillCandidates_valid_edges build outgoingEdges e :
  unassigned e →
  (build = Debug →
   ∀ edge, edge ∈ outgoingEdges → real_edge edge = true →
           proper_class (feature_class (GetFeatureId edge)) = true) →
  ∃ cands e',
    fillCandidates build outgoingEdges [] e = Ok (cands, e') ∧
    cands = candidate_of <$> List.filter real_edge outgoingEdges ∧
    length cands = length (List.filter real_edge outgoingEdges) ∧
    (∀ cand, cand ∈ cands ↔
             ∃ edge, edge ∈ outgoingEdges ∧ IsValid (GetFeatureId edge) = true ∧
                     cand = candidate_of edge).
Proof.
  intros He Hproper.
  destruct (fillCandidates_from build outgoingEdges [] e He Hproper)
    as (e' & Hfill & _).
  eexists _, e'. split; [exact Hfill|]. cbn. split; [done|].
  split; [by rewrite length_fmap|].
  intros cand. rewrite list_elem_of_fmap. split.
  - intros (edge & -> & Hin). exists edge.
    apply list_elem_of_In, filter_In in Hin as [Hin Hreal].
    by apply list_elem_of_In in Hin.
  - intros (edge & Hin & Hvalid & ->). exists edge. split; [done|].
    apply list_elem_of_In, filter_In. split; [by apply list_elem_of_In|done].
Qed.

Lemma LoadPathGeometry_valid build featureId pts e :
  unassigned e → IsValid featureId = true →
  LoadPathGeometry build featureId pts e =
  match ASSERT_pure build (proper_class (feature_class featureId)) with
  | Ok _ => Ok (segment_of featureId pts, with_loader (m_mwmId featureId) e)
  | Crash f => Crash f
  end.
Proof.
  intros He Hvalid. unfold LoadPathGeometry. rewrite Hvalid. cbn.
  unfold bind. rewrite Update_valid by done. cbn.
  unfold segment_of. fold (feature_class featureId). unfold proper_class.
  destruct build; cbn; [|done].
  unfold ASSERT, lift, ASSERT_pure, ret.
  by destruct (feature_class featureId).
Qed.

(** What one round of the loop registers, in a release build: under the
    feature index of the edge that enters the junction, unless that key is
    taken, the number of ingoing edges of the junction and the candidates of
    its real outgoing edges. *)
Lemma Generate_step_record graph path routeEdges i e prev curr inEdge :
  unassigned e →
  path !! (i - 1) = Some prev → path !! i = Some curr →
  routeEdges !! (i - 1) = Some inEdge →
  ∃ e', Generate_step Release graph path routeEdges i e = Ok (tt, e') ∧
        unassigned e' ∧
        e_adjacentEdges e' =
          map_insert (m_index (GetFeatureId inEdge))
            (mkAdjacentEdges
               (mkTurnCandidates
                  (candidate_of <$> List.filter real_edge (GetOutgoingEdges graph curr))
                  false)
               (length (GetIngoingEdges graph curr)))
            (e_adjacentEdges e).
Proof.
  intros He Hprev Hcurr Hin.
  unfold Generate_step, bind, at_. cbv zeta. rewrite Hprev, Hcurr. cbn.
  rewrite Hin. cbn.
  destruct (fillCandidates_from Release (GetOutgoingEdges graph curr) [] e He)
    as (e1 & -> & Ha1 & Hs1 & Hid1); [done|]. cbn.
  assert (∃ s e2, (if IsValid (GetFeatureId inEdge)
                   then LoadPathGeometry Release (GetFeatureId inEdge)
                          [GetPoint prev; GetPoint curr]
                   else ret LoadedPathSegment_Clear) e1 = Ok (s, e2) ∧
                  frame e1 e2) as (s & e2 & -> & Ha2 & Hs2 & Hid2).
  { destruct (IsValid (GetFeatureId inEdge)).
    - destruct (LoadPathGeometry_Release (GetFeatureId inEdge)
                  [GetPoint prev; GetPoint curr] e1) as (s & e2 & Hload).
      exists s, e2. split; [done|]. by eapply LoadPathGeometry_frame.
    - eexists _, e1. split; [done|]. apply frame_refl. }
  eexists. split; [done|]. unfold unassigned in *. cbn.
  split; [by rewrite Hid2, Hid1|]. by rewrite Ha2, Ha1.
Qed.

(** *** Two calls in a row *)

Lemma uniform_ret {A} (a : A) : uniform (ret a : M A).
Proof. intros e1 e2 H. by split. Qed.

Lemma uniform_bind {A B} (m : M A) (k : A → M B) :
  uniform m → (∀ a, uniform (k a)) → uniform (bind m k).
Proof.
  intros Hm Hk e1 e2 H. unfold bind. specialize (Hm e1 e2 H).
  destruct (m e1) as [[a1 e1']|f1], (m e2) as [[a2 e2']|f2]; try done.
  destruct Hm as [-> Hm]. by apply Hk.
Qed.

Lemma uniform_lift {A} (r : Result A) : uniform (lift r : M A).
Proof. intros e1 e2 H. unfold lift. by destruct r. Qed.

Lemma uniform_at {A} (v : list A) i : uniform (at_ v i : M A).
Proof. unfold at_. destruct (v !! i); [apply uniform_ret|]. by intros e1 e2 H. Qed.

Lemma agree_with_loader mwmId1 mwmId2 e1 e2 :
  agree e1 e2 → agree (with_loader mwmId1 e1) (with_loader mwmId2 e2).
Proof. intros (? & ? & ? & ?). by repeat split. Qed.

Lemma uniform_GetHighwayClass build featureId :
  IsValid featureId = true → uniform (GetHighwayClass build featureId).
Proof.
  intros Hvalid e1 e2 H. pose proof H as (_ & _ & H1 & H2).
  rewrite !GetHighwayClass_valid by done.
  destruct (ASSERT_pure _ _); [|done]. split; [done|].
  by apply agree_with_loader.
Qed.

Lemma uniform_LoadPathGeometry build featureId pts :
  IsValid featureId = true → uniform (LoadPathGeometry build featureId pts).
Proof.
  intros Hvalid e1 e2 H. pose proof H as (_ & _ & H1 & H2).
  rewrite !LoadPathGeometry_valid by done.
  destruct (ASSERT_pure _ _); [|done]. split; [done|].
  by apply agree_with_loader.
Qed.

Lemma uniform_fillCandidates build outgoingEdges cands :
  uniform (fillCandidates build outgoingEdges cands).
Proof.
  revert cands. induction outgoingEdges as [|edge rest IH]; intros cands; cbn.
  - apply uniform_ret.
  - destruct (IsValid (GetFeatureId edge)) eqn:Hvalid; cbn; [|apply IH].
    apply uniform_bind; [by apply uniform_GetHighwayClass|]. intros c. apply IH.
Qed.

Lemma uniform_Generate_step build graph path routeEdges i :
  uniform (Generate_step build graph path routeEdges i).
Proof.
  unfold Generate_step. cbv zeta.
  apply uniform_bind; [apply uniform_at|]. intros prev.
  apply uniform_bind; [apply uniform_at|]. intros curr.
  apply uniform_bind; [apply uniform_lift|]. intros _.
  apply uniform_bind; [apply uniform_at|]. intros inEdge.
  apply uniform_bind; [apply uniform_fillCandidates|]. intros outgoing.
  apply uniform_bind.
  { destruct (IsValid (GetFeatureId inEdge)) eqn:Hvalid.
    - by apply uniform_LoadPathGeometry.
    - apply uniform_ret. }
  intros s. apply uniform_bind.
  - intros e1 e2 (Ha & Hs & H1 & H2). split; [done|].
    repeat split; cbn; [by rewrite Ha|done|done|done].
  - intros _ e1 e2 (Ha & Hs & H1 & H2). split; [done|].
    repeat split; cbn; [done|by rewrite Hs|done|done].
Qed.

Lemma uniform_Generate_loop build graph path routeEdges indices :
  uniform (Generate_loop build graph path routeEdges indices).
Proof.
  induction indices as [|i rest IH]; cbn; [apply uniform_ret|].
  apply uniform_bind; [apply uniform_Generate_step|]. by intros _.
Qed.

(** Generate clears the collections first: what it answers depends on the
    engine only through the remembered partition. *)
Lemma Generate_uniform build graph path (c : Cancellable) e1 e2 :
  unassigned e1 → unassigned e2 →
  agree_result (Generate build graph path c e1) (Generate build graph path c e2).
Proof.
  intros H1 H2. destruct (decide (2 ≤ length path)) as [Hlen|Hlen].
  - rewrite !Generate_long by done. cbn zeta.
    assert (agree (degenerate_engine e1) (degenerate_engine e2)) by by repeat split.
    destruct (ReconstructPath graph path c) as [[|] [|edge edges]];
      [by destruct build| |done|done].
    pose proof (uniform_Generate_loop build graph path (edge :: edges)
                  (seq 1 (length path - 1))
                  (sentinel_engine e1) (sentinel_engine e2)) as Hloop.
    destruct (Generate_loop _ _ _ _ _ (sentinel_engine e1)) as [[[] e1']|f1],
             (Generate_loop _ _ _ _ _ (sentinel_engine e2)) as [[[] e2']|f2];
      try (by apply Hloop; repeat split).
    destruct Hloop as (_ & Ha & Hs & Hu); [by repeat split|].
    rewrite Ha, Hs. split; [done|]. by split.
  - destruct path as [|j [|j' path]]; [| |cbn in Hlen; lia].
    + by rewrite !Generate_empty_path.
    + rewrite !Generate_single. destruct build; [done|]. by repeat split.
Qed.

Lemma unassigned_ctor :
  unassigned (BicycleDirectionsEngine_ctor : Engine PointD double).
Proof. reflexivity. Qed.

Lemma Generate_keeps_unassigned build graph path (c : Cancellable) e o e' :
  unassigned e → Generate build graph path c e = Ok (o, e') → unassigned e'.
Proof.
  intros He H. pose proof (Generate_uniform build graph path c e e He He) as Hu.
  rewrite H in Hu. by destruct Hu as (_ & _ & _ & ? & _).
Qed.

(** C8.  A second call of Generate with the same graph, path and signal,
    made on the engine as the first call left it (guard included), hands
    back the same times, turns and geometry as the first. *)
Theorem Generate_twice build graph path (c : Cancellable) e o1 e1 :
  unassigned e →
  Generate build graph path c e = Ok (o1, e1) →
  ∃ o2 e2,
    Generate build graph path c e1 = Ok (o2, e2) ∧
    out_times (outputs o2) = out_times (outputs o1) ∧
    out_turns (outputs o2) = out_turns (outputs o1) ∧
    out_routeGeometry (outputs o2) = out_routeGeometry (outputs o1).
Proof.
  intros He H1.
  pose proof (Generate_keeps_unassigned _ _ _ _ _ _ _ He H1) as He1.
  pose proof (Generate_uniform build graph path c e e1 He He1) as Hu.
  rewrite H1 in Hu.
  destruct (Generate build graph path c e1) as [[o2 e2]|f]; [|done].
  destruct Hu as [-> _]. by exists o2, e2.
Qed.

(** *** The remembered partition and the guard *)

(** Two resolutions in a row against one partition: as the remembered
    partition is never assigned, each of them builds a loader. *)
Lemma Update_twice_same_partition mwmId e :
  mwmId ≠ m_mwmIdFeaturesLoaderGuard e →
  bind (UpdateFeatureLoaderGuardIfNeeded mwmId)
       (λ _, UpdateFeatureLoaderGuardIfNeeded mwmId) e
  = Ok (tt, with_loader mwmId (with_loader mwmId e)).
Proof.
  intros Hne. unfold bind, UpdateFeatureLoaderGuardIfNeeded.
  rewrite (bool_decide_eq_true_2 _ Hne), orb_true_r. cbn.
  by rewrite (bool_decide_eq_true_2 _ Hne).
Qed.

End Properties.

(** ** Cancellation *)

Section Cancellation.

Context {PointD double FeatureType : Type} `{EqDecision PointD}.
Context `{W : Collaborators PointD double FeatureType (nat → bool)}.

(** The engine reconstructs its path as the spec describes. *)
Hypothesis reconstruct_as_modelled :
  ∀ graph path signal,
    ReconstructPath graph path signal = ReconstructPath_spec graph path signal.

Lemma ReconstructPath_from_cancelled (graph : IRoadGraph PointD) curr rest
    signal polls routeEdges :
  (∃ k, polls ≤ k < polls + length rest ∧ signal k = true) →
  (ReconstructPath_from graph curr rest signal polls routeEdges).1 = false.
Proof.
  revert curr polls routeEdges.
  induction rest as [|next rest IH]; intros curr polls routeEdges (k & Hk & Hfire).
  - cbn in Hk. lia.
  - cbn. destruct (signal polls) eqn:Hpoll; [done|].
    destruct (find _ _) as [edge|]; [|done].
    apply IH. exists k. split; [|done].
    assert (k ≠ polls) by congruence. cbn in Hk. lia.
Qed.

Lemma ReconstructPath_from_length (graph : IRoadGraph PointD) curr rest
    signal polls routeEdges edges :
  ReconstructPath_from graph curr rest signal polls routeEdges = (true, edges) →
  length edges = length routeEdges + length rest.
Proof.
  revert curr polls routeEdges.
  induction rest as [|next rest IH]; intros curr polls routeEdges; cbn.
  - intros [= <-]. lia.
  - destruct (signal polls); [done|].
    destruct (find _ _) as [edge|]; [|done].
    intros ->%IH. rewrite length_app. cbn. lia.
Qed.

(** A reconstruction that succeeds gives one edge per consecutive pair. *)
Lemma ReconstructPath_spec_length (graph : IRoadGraph PointD) path signal edges :
  ReconstructPath_spec graph path signal = (true, edges) →
  length edges = length path - 1.
Proof.
  destruct path as [|curr rest]; [done|]. cbn.
  intros ->%ReconstructPath_from_length. cbn. lia.
Qed.

(** C5.  When the signal fires at one of the polls of the reconstruction of
    a path of three junctions or more, Generate, in every build, answers
    with the degenerate result: the single reached-destination turn, no
    geometry, no segment, and the one record under key 0.  The edges found
    before the signal fired go nowhere; [times] holds what CalculateTimes
    computed, whole, before the reconstruction began. *)
Theorem Generate_cancelled build (graph : IRoadGraph PointD) path signal e :
  3 ≤ length path →
  (∃ k, k < length path - 1 ∧ signal k = true) →
  ∃ out e',
    Generate build graph path signal e = Ok (DegenerateOutcome out, e') ∧
    out_turns out
      = [mkTurnItem (size_t_pred (length path)) ReachedYourDestination] ∧
    out_routeGeometry out = [] ∧
    out_times out = CalculateTimes graph path ∧
    e_pathSegments e' = [] ∧
    e_adjacentEdges e' = {[ 0%N := AdjacentEdges_ctor 1 ]}.
Proof.
  intros Hlen (k & Hk & Hfire).
  eexists _, _. split; [apply Generate_reconstruct_failed; [lia|]|done].
  rewrite reconstruct_as_modelled.
  destruct path as [|curr rest]; [done|]. cbn.
  apply ReconstructPath_from_cancelled. exists k. cbn in Hk. split; [lia|done].
Qed.

End Cancellation.

(** * Further properties of the engine and of the adapter *)

Section Coverage.

Context `{W : Collaborators PointD double FeatureType Cancellable}.

Implicit Types (e : Engine PointD double) (graph : IRoadGraph PointD).
Implicit Types (path : list (Junction PointD)) (build : Build).

Local Abbreviation M := (@M PointD double).
Local Abbreviation Round := (@Round PointD double).

(** *** The loader calls, whatever the build *)

Lemma fillCandidates_Ok build outgoingEdges cands e cands' e' :
  unassigned e →
  fillCandidates build outgoingEdges cands e = Ok (cands', e') →
  cands' = cands ++ (candidate_of <$> List.filter real_edge outgoingEdges) ∧
  unassigned e' ∧
  e_adjacentEdges e' = e_adjacentEdges e ∧
  e_pathSegments e' = e_pathSegments e ∧
  loadersConstructed e' =
    loadersConstructed e
    ++ ((λ edge, m_mwmId (GetFeatureId edge)) <$> List.filter real_edge outgoingEdges).
Proof.
  revert cands e. induction outgoingEdges as [|edge rest IH];
    intros cands e He; cbn.
  - intros [= <- <-]. by rewrite !app_nil_r.
  - fold (real_edge edge). destruct (real_edge edge) eqn:Hreal; cbn; [|by apply IH].
    intros H. apply bind_Ok in H as (c & e1 & HG & H).
    rewrite GetHighwayClass_valid in HG by done.
    destruct (ASSERT_pure _ _); [|done]. injection HG as <- <-.
    apply IH in H as (-> & Hu & Ha & Hs & Hl); [|done].
    rewrite <- !app_assoc. cbn in *. by rewrite Hl, <- app_assoc.
Qed.

Lemma Generate_step_effect build graph path routeEdges i e u e' :
  unassigned e →
  Generate_step build graph path routeEdges i e = Ok (u, e') →
  ∃ r, round_of graph path routeEdges i = Some r ∧
       e_adjacentEdges e' = map_insert (round_key r) (round_record r) (e_adjacentEdges e) ∧
       e_pathSegments e' = e_pathSegments e ++ [round_segment r] ∧
       loadersConstructed e' = loadersConstructed e ++ round_partitions r ∧
       unassigned e'.
Proof.
  intros He. unfold Generate_step. cbv zeta. intros H.
  apply bind_Ok in H as (prev & e1 & [Hprev ->]%at_Ok & H).
  apply bind_Ok in H as (curr & e2 & [Hcurr ->]%at_Ok & H).
  apply bind_Ok in H as (? & e3 & [-> _]%ASSERT_Ok & H).
  apply bind_Ok in H as (inEdge & e4 & [Hin ->]%at_Ok & H).
  apply bind_Ok in H as (outgoing & e5 & Hfill & H).
  apply fillCandidates_Ok in Hfill as (-> & He5 & Ha5 & Hs5 & Hl5); [|done].
  apply bind_Ok in H as (s & e6 & Hseg & H).
  injection H as _ <-. cbn.
  exists (mkRound (m_index (GetFeatureId inEdge)) (record_for graph curr)
                  (segment_for prev curr inEdge)
                  (partitions_for graph curr inEdge)).
  split; [unfold round_of; by rewrite Hprev, Hcurr, Hin|]. cbn.
  unfold segment_for, partitions_for.
  destruct (IsValid (GetFeatureId inEdge)) eqn:Hvalid.
  - rewrite LoadPathGeometry_valid in Hseg by done.
    destruct (ASSERT_pure _ _); [|done]. injection Hseg as <- <-. cbn.
    by rewrite Ha5, Hs5, Hl5, <- app_assoc.
  - injection Hseg as <- <-. by rewrite Ha5, Hs5, Hl5, app_nil_r.
Qed.

Lemma Generate_loop_effect build graph path routeEdges indices e u e' :
  unassigned e →
  Generate_loop build graph path routeEdges indices e = Ok (u, e') →
  ∃ rounds,
    Forall2 (λ i r, round_of graph path routeEdges i = Some r) indices rounds ∧
    e_adjacentEdges e' = register_rounds rounds (e_adjacentEdges e) ∧
    e_pathSegments e' = e_pathSegments e ++ (round_segment <$> rounds) ∧
    loadersConstructed e' =
      loadersConstructed e ++ concat (round_partitions <$> rounds) ∧
    unassigned e'.
Proof.
  revert e. induction indices as [|i rest IH]; intros e He; cbn.
  - intros [= _ <-]. exists []. split; [constructor|]. cbn.
    by rewrite !app_nil_r.
  - intros H. apply bind_Ok in H as (? & e1 & Hstep & H).
    apply Generate_step_effect in Hstep as (r & Hr & Ha & Hs & Hl & He1); [|done].
    apply IH in H as (rounds & Hall & Ha' & Hs' & Hl' & He'); [|done].
    exists (r :: rounds). split; [by constructor|]. cbn.
    rewrite Ha', Hs', Hl', Ha, Hs, Hl. by rewrite <- !app_assoc.
Qed.

(** The first round under a key decides the record, unless the key was
    taken before the rounds began. *)
Lemma register_rounds_first (rounds : list Round)
    (m : gmap N (AdjacentEdges double)) j r :
  rounds !! j = Some r →
  (∀ j' r', j' < j → rounds !! j' = Some r' → round_key r' ≠ round_key r) →
  m !! round_key r = None →
  register_rounds rounds m !! round_key r = Some (round_record r).
Proof.
  assert (∀ (rounds : list Round) (m : gmap N (AdjacentEdges double)) k v,
            m !! k = Some v → register_rounds rounds m !! k = Some v) as Hkeep.
  { clear. induction rounds as [|r0 rounds IH]; intros m k v Hk; [done|].
    cbn. apply IH. by apply map_insert_keeps. }
  revert m j. induction rounds as [|r0 rounds IH]; intros m j Hj Hfirst Hm; [done|].
  destruct j as [|j]; cbn in *.
  - injection Hj as ->. apply Hkeep. unfold map_insert. rewrite Hm.
    apply lookup_insert_eq.
  - apply (IH _ j); [done| |].
    + intros j' r' Hlt Hr'. apply (Hfirst (S j') r'); [lia|done].
    + unfold map_insert. destruct (m !! round_key r0) eqn:H0; [done|].
      rewrite lookup_insert_ne; [done|]. apply (Hfirst 0 r0); [lia|done].
Qed.

Lemma round_of_S graph path routeEdges i prev curr inEdge :
  path !! i = Some prev → path !! S i = Some curr →
  routeEdges !! i = Some inEdge →
  round_of graph path routeEdges (S i)
  = Some (mkRound (m_index (GetFeatureId inEdge)) (record_for graph curr)
                  (segment_for prev curr inEdge)
                  (partitions_for graph curr inEdge)).
Proof.
  intros Hprev Hcurr Hin. unfold round_of.
  replace (S i - 1) with i by lia. by rewrite Hprev, Hcurr, Hin.
Qed.

Lemma round_of_key graph path routeEdges i r :
  round_of graph path routeEdges (S i) = Some r →
  ∃ inEdge, routeEdges !! i = Some inEdge ∧
            round_key r = m_index (GetFeatureId inEdge).
Proof.
  unfold round_of. replace (S i - 1) with i by lia.
  destruct (path !! i); [|done]. destruct (path !! S i); [|done].
  destruct (routeEdges !! i) as [inEdge|]; [|done]. cbn.
  intros [= <-]. by exists inEdge.
Qed.

(** *** What a call that reaches the adapter has built *)

Lemma Generate_Normal_rounds build graph path (c : Cancellable) e rg out e' :
  unassigned e →
  Generate build graph path c e = Ok (NormalOutcome rg out, e') →
  ∃ rounds,
    Forall2 (λ i r, round_of graph path (m_routeEdges rg) i = Some r)
            (seq 1 (length path - 1)) rounds ∧
    m_adjacentEdges rg
      = register_rounds rounds (map_insert 0%N (AdjacentEdges_ctor 0) ∅) ∧
    m_pathSegments rg = round_segment <$> rounds ∧
    loadersConstructed e'
      = loadersConstructed e ++ concat (round_partitions <$> rounds).
Proof.
  intros He H.
  apply Generate_Normal_inv in H as (_ & _ & _ & Hloop & -> & ->).
  apply Generate_loop_effect in Hloop
    as (rounds & Hall & Ha & Hs & Hl & _); [|done].
  exists rounds. by rewrite Ha, Hs, Hl.
Qed.

Lemma rounds_lookup graph path routeEdges (rounds : list Round) n i
    prev curr inEdge :
  Forall2 (λ i r, round_of graph path routeEdges i = Some r) (seq 1 n) rounds →
  i < n →
  path !! i = Some prev → path !! S i = Some curr →
  routeEdges !! i = Some inEdge →
  rounds !! i
  = Some (mkRound (m_index (GetFeatureId inEdge)) (record_for graph curr)
                  (segment_for prev curr inEdge)
                  (partitions_for graph curr inEdge)).
Proof.
  intros Hall Hi Hprev Hcurr Hin.
  assert (seq 1 n !! i = Some (S i)) as Hseq by by apply lookup_seq_lt.
  destruct (Forall2_lookup_l _ _ _ _ _ Hall Hseq) as (r & -> & Hr).
  by rewrite (round_of_S _ _ _ _ _ _ _ Hprev Hcurr Hin) in Hr.
Qed.

(** X1.  The segments stand in the order of the traversed edges, one per pair of
    consecutive junctions: the segment of a real edge holds the points of
    the two junctions, the class, name and flags of the edge's feature and
    its index as node id, and an unset weight; the segment of a fake edge is
    a cleared one. *)
Theorem Generate_segments build graph path (c : Cancellable) e rg out e' :
  unassigned e →
  Generate build graph path c e = Ok (NormalOutcome rg out, e') →
  length (m_pathSegments rg) = length path - 1 ∧
  ∀ i prev curr inEdge,
    path !! i = Some prev → path !! S i = Some curr →
    m_routeEdges rg !! i = Some inEdge →
    m_pathSegments rg !! i = Some (segment_for prev curr inEdge).
Proof.
  intros He H.
  apply Generate_Normal_rounds in H as (rounds & Hall & _ & -> & _); [|done].
  pose proof (Forall2_length _ _ _ Hall) as Hlen. rewrite length_seq in Hlen.
  split; [by rewrite length_fmap|].
  intros i prev curr inEdge Hprev Hcurr Hin.
  assert (i < length path - 1) as Hi.
  { apply lookup_lt_Some in Hcurr. lia. }
  rewrite list_lookup_fmap.
  by rewrite (rounds_lookup _ _ _ _ _ _ _ _ _ Hall Hi Hprev Hcurr Hin).
Qed.

(** X2.  Looking up, on the adapter Generate has built, the feature index of a
    traversed edge that is the first to carry that index (and whose index
    is not 0) gives the junction that edge enters: the number of its
    ingoing edges and a candidate for each of its real outgoing edges. *)
Theorem Generate_then_GetPossibleTurns build graph path (c : Cancellable)
    e rg out e' i inEdge curr :
  unassigned e →
  Generate build graph path c e = Ok (NormalOutcome rg out, e') →
  m_routeEdges rg !! i = Some inEdge →
  path !! S i = Some curr →
  m_index (GetFeatureId inEdge) ≠ 0%N →
  (∀ j edge, j < i → m_routeEdges rg !! j = Some edge →
             m_index (GetFeatureId edge) ≠ m_index (GetFeatureId inEdge)) →
  ∀ build' p q outgoingTurns,
    GetPossibleTurns build' rg (m_index (GetFeatureId inEdge)) p q outgoingTurns
    = Ok (length (GetIngoingEdges graph curr),
          mkTurnCandidates
            (candidate_of <$> List.filter real_edge (GetOutgoingEdges graph curr))
            (isCandidatesAngleValid outgoingTurns)).
Proof.
  intros He H Hin Hcurr Hkey Hfirst build' p q outgoingTurns.
  apply Generate_Normal_rounds in H as (rounds & Hall & Ha & _ & _); [|done].
  assert (i < length path - 1) as Hi.
  { apply lookup_lt_Some in Hcurr. lia. }
  destruct (lookup_lt_is_Some_2 path i) as [prev Hprev].
  { apply lookup_lt_Some in Hcurr. lia. }
  pose proof (rounds_lookup _ _ _ _ _ _ _ _ _ Hall Hi Hprev Hcurr Hin) as Hr.
  rewrite (GetPossibleTurns_present _ _ _ _ _ _ (record_for graph curr));
    [done|].
  rewrite Ha.
  apply (register_rounds_first rounds _ i _ Hr); cbn.
  - intros j r' Hj Hr'.
    assert (seq 1 (length path - 1) !! j = Some (S j)) as Hseq
      by (apply lookup_seq_lt; lia).
    destruct (Forall2_lookup_l _ _ _ _ _ Hall Hseq) as (r'' & Hr'' & Hround).
    rewrite Hr' in Hr''. injection Hr'' as <-.
    apply round_of_key in Hround as (edge & Hedge & ->).
    by apply (Hfirst j).
  - unfold map_insert. rewrite lookup_empty.
    rewrite lookup_insert_ne; [apply lookup_empty|done].
Qed.


(** X3.  On the adapter Generate has built, the lookup of the feature index of
    any edge the loop has read, and the lookup of 0, find a record: in no
    build does GetPossibleTurns take its branch of the missing key. *)
Theorem Generate_lookup_finds build graph path (c : Cancellable) e rg out e' :
  Generate build graph path c e = Ok (NormalOutcome rg out, e') →
  ∀ key,
    key = 0%N ∨
    (∃ i edge, i < length path - 1 ∧ m_routeEdges rg !! i = Some edge ∧
               key = m_index (GetFeatureId edge)) →
    ∀ build' p q outgoingTurns,
      ∃ ingoingCount turns,
        GetPossibleTurns build' rg key p q outgoingTurns = Ok (ingoingCount, turns).
Proof.
  intros H key Hkey build' p q outgoingTurns.
  apply Generate_Normal_inv in H as (_ & _ & _ & Hloop & Ha & _).
  apply Generate_loop_Ok in Hloop as (_ & _ & Hkeep & inEdges & Hall & Hdom).
  assert (is_Some (m_adjacentEdges rg !! key)) as [a Hlook].
  { rewrite Ha. destruct Hkey as [->|(i & edge & Hi & Hedge & ->)].
    - eexists. apply Hkeep, sentinel_lookup.
    - apply elem_of_dom. rewrite Hdom. apply elem_of_union_r.
      assert (seq 1 (length path - 1) !! i = Some (S i)) as Hseq
        by by apply lookup_seq_lt.
      destruct (Forall2_lookup_l _ _ _ _ _ Hall Hseq) as (edge' & Hin & Hedge').
      replace (S i - 1) with i in Hedge' by lia.
      rewrite Hedge in Hedge'. injection Hedge' as <-.
      apply elem_of_list_to_set, list_elem_of_fmap. exists edge.
      split; [done|]. by eapply list_elem_of_lookup_2. }
  eexists _, _. by apply GetPossibleTurns_present.
Qed.

(** X4.  A call that reaches the adapter has built one loader for each real
    outgoing edge of each junction it stood on, and one for each real
    traversed edge, in the order of the rounds: no resolution is served by
    the loader of the resolution before it. *)
Theorem Generate_loaders_built build graph path (c : Cancellable) e rg out e' :
  unassigned e →
  Generate build graph path c e = Ok (NormalOutcome rg out, e') →
  ∃ rounds : list Round,
    Forall2 (λ i r, round_of graph path (m_routeEdges rg) i = Some r)
            (seq 1 (length path - 1)) rounds ∧
    loadersConstructed e'
      = loadersConstructed e ++ concat (round_partitions <$> rounds) ∧
    ∀ mwmId, mwmId ∈ concat (round_partitions <$> rounds) → is_Some mwmId.
Proof.
  intros He H.
  apply Generate_Normal_rounds in H as (rounds & Hall & _ & _ & Hl); [|done].
  exists rounds. split; [done|]. split; [done|].
  intros mwmId Hin.
  apply list_elem_of_In, in_concat in Hin as (parts & Hparts & Hin).
  apply list_elem_of_In in Hparts. apply list_elem_of_In in Hin.
  apply list_elem_of_fmap in Hparts as (r & -> & Hr).
  apply list_elem_of_lookup in Hr as (j & Hj).
  pose proof (Forall2_length _ _ _ Hall) as Hlen. rewrite length_seq in Hlen.
  assert (seq 1 (length path - 1) !! j = Some (S j)) as Hseq.
  { apply lookup_seq_lt. apply lookup_lt_Some in Hj. lia. }
  destruct (Forall2_lookup_l _ _ _ _ _ Hall Hseq) as (r' & Hr' & Hround).
  rewrite Hj in Hr'. injection Hr' as <-.
  unfold round_of in Hround.
  destruct (path !! (S j - 1)) as [prev|]; [|done].
  destruct (path !! S j) as [curr|]; [|done].
  destruct (m_routeEdges rg !! (S j - 1)) as [inEdge|]; [|done].
  cbn in Hround. injection Hround as <-. cbn in Hin.
  unfold partitions_for in Hin. apply elem_of_app in Hin as [Hin|Hin].
  - apply list_elem_of_fmap in Hin as (edge & -> & Hedge).
    apply list_elem_of_In, filter_In in Hedge as [_ Hreal].
    unfold real_edge, IsValid in Hreal.
    by destruct (m_mwmId (GetFeatureId edge)).
  - destruct (IsValid (GetFeatureId inEdge)) eqn:Hvalid; [|by apply elem_of_nil in Hin].
    apply list_elem_of_singleton in Hin as ->. unfold IsValid in Hvalid.
    by destruct (m_mwmId (GetFeatureId inEdge)).
Qed.

(** *** The faults of Generate *)

Lemma ASSERT_Crash build cond e f :
  ASSERT build cond e = Crash f → f = AssertFailed ∧ build = Debug.
Proof.
  unfold ASSERT, lift, ASSERT_pure. destruct build, cond; try done.
  by intros [= <-].
Qed.

Lemma loader_calls_Crash build featureId (k : FeatureType → M HighwayClass)
    e f :
  (∀ ft e1 f1, k ft e1 = Crash f1 → f1 = AssertFailed ∧ build = Debug) →
  bind (UpdateFeatureLoaderGuardIfNeeded (m_mwmId featureId))
       (λ _, bind (loadFeature (m_index featureId)) k) e = Crash f →
  f = AssertFailed ∧ build = Debug.
Proof.
  intros Hk H. unfold bind in H.
  destruct (Update_Ok (m_mwmId featureId) e) as (e1 & HU & _ & Hg).
  rewrite HU in H.
  destruct (loadFeature_guarded (m_index featureId) e1 Hg) as (ft & HL).
  rewrite HL in H. by eapply Hk.
Qed.

Lemma GetHighwayClass_Crash build featureId e f :
  GetHighwayClass build featureId e = Crash f → f = AssertFailed ∧ build = Debug.
Proof.
  unfold GetHighwayClass. cbv zeta. apply loader_calls_Crash.
  intros ft e1 f1 H.
  apply bind_Crash in H as [H|(? & e2 & _ & H)]; [by eapply ASSERT_Crash|].
  apply bind_Crash in H as [H|(? & e3 & _ & H)]; [by eapply ASSERT_Crash|done].
Qed.

Lemma LoadPathGeometry_Crash build featureId pts e f :
  LoadPathGeometry build featureId pts e = Crash f →
  f = AssertFailed ∧ build = Debug.
Proof.
  unfold LoadPathGeometry. cbv zeta. destruct (negb (IsValid featureId)).
  - intros H.
    apply bind_Crash in H as [H|(? & e2 & _ & H)]; [by eapply ASSERT_Crash|done].
  - unfold bind at 1 2. intros H.
    destruct (Update_Ok (m_mwmId featureId) e) as (e1 & HU & _ & Hg).
    rewrite HU in H.
    destruct (loadFeature_guarded (m_index featureId) e1 Hg) as (ft & HL).
    rewrite HL in H.
    apply bind_Crash in H as [H|(? & e2 & _ & H)]; [by eapply ASSERT_Crash|].
    apply bind_Crash in H as [H|(? & e3 & _ & H)]; [by eapply ASSERT_Crash|done].
Qed.

Lemma fillCandidates_Crash build outgoingEdges cands e f :
  fillCandidates build outgoingEdges cands e = Crash f →
  f = AssertFailed ∧ build = Debug.
Proof.
  revert cands e. induction outgoingEdges as [|edge rest IH]; intros cands e; cbn.
  - done.
  - destruct (negb (IsValid (GetFeatureId edge))); [apply IH|].
    intros H. apply bind_Crash in H as [H|(c & e1 & _ & H)].
    + by eapply GetHighwayClass_Crash.
    + by eapply IH.
Qed.

Lemma Generate_step_Crash build graph path routeEdges i e f :
  1 ≤ i → i < length path →
  Generate_step build graph path routeEdges i e = Crash f →
  (f = AssertFailed ∧ build = Debug) ∨
  (f = OutOfRange ∧ build = Release ∧ routeEdges !! (i - 1) = None).
Proof.
  intros Hi1 Hi2.
  destruct (lookup_lt_is_Some_2 path (i - 1)) as [prev Hprev]; [lia|].
  destruct (lookup_lt_is_Some_2 path i) as [curr Hcurr]; [lia|].
  unfold Generate_step. cbv zeta. unfold bind at 1 2, at_ at 1 2.
  rewrite Hprev, Hcurr. cbn. intros H.
  apply bind_Crash in H as [H|(? & e1 & [-> Hlen]%ASSERT_Ok & H)];
    [left; by eapply ASSERT_Crash|].
  apply bind_Crash in H as [H|(inEdge & e2 & _ & H)].
  - unfold at_ in H. destruct (routeEdges !! (i - 1)) as [inEdge|] eqn:Hin;
      [done|]. injection H as <-. destruct build; [|by right].
    specialize (Hlen eq_refl). apply bool_decide_eq_true in Hlen.
    apply lookup_ge_None in Hin. lia.
  - left. apply bind_Crash in H as [H|(outgoing & e3 & _ & H)];
      [by eapply fillCandidates_Crash|].
    apply bind_Crash in H as [H|(s & e4 & _ & H)].
    + destruct (IsValid (GetFeatureId inEdge)); [|done].
      by eapply LoadPathGeometry_Crash.
    + apply bind_Crash in H as [H|(? & e5 & _ & H)]; done.
Qed.

Lemma Generate_loop_Crash build graph path routeEdges indices e f :
  (∀ i, i ∈ indices → 1 ≤ i < length path) →
  Generate_loop build graph path routeEdges indices e = Crash f →
  (f = AssertFailed ∧ build = Debug) ∨
  (f = OutOfRange ∧ build = Release ∧
   ∃ i, i ∈ indices ∧ routeEdges !! (i - 1) = None).
Proof.
  revert e. induction indices as [|i rest IH]; intros e Hin; cbn; [done|].
  intros H. apply bind_Crash in H as [H|(? & e1 & _ & H)].
  - apply Generate_step_Crash in H as [H|(-> & -> & H)];
      [by left| |apply Hin; set_solver..].
    right. repeat split. exists i. split; [set_solver|done].
  - apply IH in H as [H|(-> & -> & j & Hj & H)]; [by left| |].
    + right. repeat split. exists j. split; [set_solver|done].
    + intros j Hj. apply Hin. set_solver.
Qed.

(** X5.  The faults of Generate's own code, the functions it calls from the
    rest of the program (ReconstructPath, CalculateTimes, MakeTurnAnnotation
    and what that one calls back, the loader) being taken to return.  A
    call that does not return has stopped at the entry check on the empty
    path, in any build; or at an assertion, in a debug build only; or, in a
    release build only, with the out-of-range fault, and then the
    reconstruction has handed back fewer edges than there are pairs of
    consecutive junctions: at the round where the edges run out path[i - 1]
    and path[i] are read within bounds and it is the read of
    routeEdges[i - 1] that is past the end, while GetHighwayClass and
    LoadPathGeometry return on every feature, so no null guard is gone
    through.  A debug build never ends in the out-of-range fault. *)
Theorem Generate_faults build graph path (c : Cancellable) e f :
  Generate build graph path c e = Crash f →
  (f = CheckFailed ∧ path = []) ∨
  (f = AssertFailed ∧ build = Debug) ∨
  (f = OutOfRange ∧ build = Release ∧
   ∃ routeEdges i,
     ReconstructPath graph path c = (true, routeEdges) ∧
     length routeEdges < length path - 1 ∧
     i = S (length routeEdges) ∧
     (∀ e0, ∃ prev curr, (at_ path (i - 1) : M _) e0 = Ok (prev, e0) ∧
                         (at_ path i : M _) e0 = Ok (curr, e0)) ∧
     (∀ e0, (at_ routeEdges (i - 1) : M _) e0 = Crash OutOfRange) ∧
     (∀ featureId e0, ∃ cl e1,
        GetHighwayClass Release featureId e0 = Ok (cl, e1)) ∧
     (∀ featureId pts e0, ∃ s e1,
        LoadPathGeometry Release featureId pts e0 = Ok (s, e1))).
Proof.
  intros H. destruct (decide (2 ≤ length path)) as [Hlen|Hlen].
  - rewrite Generate_long in H by done. cbn zeta in H.
    destruct (ReconstructPath graph path c) as [[|] [|edge edges]] eqn:HR;
      [destruct build; [injection H as <-; by right; left|done]| |done|done].
    destruct (Generate_loop _ _ _ _ _ _) as [[[] e1]|f1] eqn:Hloop; [done|].
    injection H as ->.
    apply Generate_loop_Crash in Hloop as [H|(-> & -> & i & Hi & Hnone)].
    + by right; left.
    + right; right. repeat split.
      assert (length (edge :: edges) < length path - 1) as Hshort.
      { apply elem_of_seq in Hi. apply lookup_ge_None in Hnone. lia. }
      exists (edge :: edges), (S (length (edge :: edges))).
      replace (S (length (edge :: edges)) - 1) with (length (edge :: edges))
        by lia.
      split; [done|]. split; [done|]. split; [done|]. split; [|split; [|split]].
      * intros e0.
        destruct (lookup_lt_is_Some_2 path (length (edge :: edges)))
          as [prev Hprev]; [lia|].
        destruct (lookup_lt_is_Some_2 path (S (length (edge :: edges))))
          as [curr Hcurr]; [lia|].
        exists prev, curr. unfold at_. by rewrite Hprev, Hcurr.
      * intros e0. unfold at_. by rewrite lookup_ge_None_2.
      * intros featureId e0. apply GetHighwayClass_Release.
      * intros featureId pts e0. apply LoadPathGeometry_Release.
    + intros i Hi%elem_of_seq. lia.
  - destruct path as [|j [|j' path]]; [| |cbn in Hlen; lia].
    + rewrite Generate_empty_path in H. injection H as <-. by left.
    + rewrite Generate_single in H. destruct build; [|done].
      injection H as <-. by right; left.
Qed.

(** X6.  In a debug build a reconstruction that succeeds with a number of edges
    other than the number of pairs of consecutive junctions is stopped by
    an assertion before any edge is read. *)
Theorem Generate_debug_edge_count graph path (c : Cancellable) e routeEdges :
  2 ≤ length path →
  ReconstructPath graph path c = (true, routeEdges) →
  length routeEdges ≠ length path - 1 →
  Generate Debug graph path c e = Crash AssertFailed.
Proof.
  intros Hlen HR Hne. rewrite Generate_long by done. cbn zeta. rewrite HR.
  destruct routeEdges as [|edge edges]; [done|].
  destruct path as [|j0 [|j1 path]]; [cbn in Hlen; lia..|].
  cbn [length Nat.sub seq Generate_loop]. unfold bind at 1.
  assert (Generate_step Debug graph (j0 :: j1 :: path) (edge :: edges) 1
            (sentinel_engine e) = Crash AssertFailed) as ->; [|done].
  unfold Generate_step, bind. cbn.
  rewrite bool_decide_eq_false_2; [done|]. cbn in Hne. cbn. lia.
Qed.

(** X7.  In a release build a reconstruction that succeeds with at least one
    edge but fewer edges than pairs of consecutive junctions makes the loop
    read routeEdges past its end. *)
Theorem Generate_release_too_few_edges graph path (c : Cancellable) e routeEdges :
  ReconstructPath graph path c = (true, routeEdges) →
  routeEdges ≠ [] →
  length routeEdges < length path - 1 →
  Generate Release graph path c e = Crash OutOfRange.
Proof.
  intros HR Hne Hlen. rewrite Generate_long by lia. cbn zeta. rewrite HR.
  destruct routeEdges as [|edge edges]; [done|].
  destruct (Generate_loop _ _ _ _ _ _) as [[[] e1]|f1] eqn:Hloop.
  - exfalso. apply Generate_loop_Ok in Hloop as (_ & _ & _ & inEdges & Hall & _).
    assert (seq 1 (length path - 1) !! length (edge :: edges)
            = Some (S (length (edge :: edges)))) as Hseq
      by by apply lookup_seq_lt.
    destruct (Forall2_lookup_l _ _ _ _ _ Hall Hseq) as (edge' & _ & Hedge).
    apply lookup_lt_Some in Hedge. cbn in Hedge. lia.
  - apply Generate_loop_Crash in Hloop as [[_ [=]]|(-> & _)]; [done|].
    intros i Hi%elem_of_seq. lia.
Qed.

(** X8.  Whatever collections and guard the engine held before the call, for
    instance those left by a call on another path, Generate answers the
    same and leaves the same collections. *)
Theorem Generate_forgets build graph path (c : Cancellable) e1 e2 o e1' :
  unassigned e1 → unassigned e2 →
  Generate build graph path c e1 = Ok (o, e1') →
  ∃ e2', Generate build graph path c e2 = Ok (o, e2') ∧
         e_adjacentEdges e2' = e_adjacentEdges e1' ∧
         e_pathSegments e2' = e_pathSegments e1'.
Proof.
  intros H1 H2 H.
  pose proof (Generate_uniform build graph path c e1 e2 H1 H2) as Hu.
  rewrite H in Hu.
  destruct (Generate build graph path c e2) as [[o2 e2']|]; [|done].
  destruct Hu as (-> & Ha & Hs & _). by exists e2'.
Qed.

(** X14.  Every degenerate answer of Generate, whichever of the three
    branches gave it, is the same but for the times: one reached-destination
    turn at the last index of the path (the entry check has excluded the
    empty path, so [pathSize - 1] has not wrapped around), no geometry, no
    segment, and the one record under key 0; the times are empty for a path
    of one junction and those of CalculateTimes otherwise. *)
Theorem Generate_degenerate build graph path (c : Cancellable) e out e' :
  Generate build graph path c e = Ok (DegenerateOutcome out, e') →
  (Z.of_nat (length path) < 2 ^ 64)%Z →
  1 ≤ length path ∧
  out_turns out
    = [mkTurnItem (Z.of_nat (length path) - 1) ReachedYourDestination] ∧
  out_routeGeometry out = [] ∧
  out_times out = (if bool_decide (length path = 1) then []
                   else CalculateTimes graph path) ∧
  e_pathSegments e' = [] ∧
  e_adjacentEdges e' = {[ 0%N := AdjacentEdges_ctor 1 ]}.
Proof.
  intros H Hsize.
  assert (1 ≤ length path →
          size_t_pred (length path) = (Z.of_nat (length path) - 1)%Z) as Hpred.
  { intros Hlen. unfold size_t_pred. apply Z.mod_small. lia. }
  destruct (decide (2 ≤ length path)) as [Hlen|Hlen].
  - rewrite Generate_long in H by done. cbn zeta in H.
    rewrite bool_decide_eq_false_2 by lia.
    assert (out = degenerate_output (CalculateTimes graph path) (length path)
            ∧ e' = degenerate_engine e) as [-> ->].
    { destruct (ReconstructPath graph path c) as [[|] [|edge edges]].
      - destruct build; [done|]. by injection H as <- <-.
      - by destruct (Generate_loop _ _ _ _ _ _) as [[[] e1]|f1].
      - by injection H as <- <-.
      - by injection H as <- <-. }
    cbn. rewrite Hpred by lia. split; [lia|done].
  - destruct path as [|j [|j' path]]; [| |cbn in Hlen; lia].
    + by rewrite Generate_empty_path in H.
    + rewrite Generate_single in H. destruct build; [done|].
      injection H as <- <-. done.
Qed.

(** *** What a debug build has checked *)

Lemma fillCandidates_Debug_proper outgoingEdges cands e cands' e' :
  unassigned e →
  fillCandidates Debug outgoingEdges cands e = Ok (cands', e') →
  ∀ edge, edge ∈ outgoingEdges → real_edge edge = true →
          proper_class (feature_class (GetFeatureId edge)) = true.
Proof.
  revert cands e. induction outgoingEdges as [|edge rest IH];
    intros cands e He; cbn.
  - intros _ edge Hin. by apply elem_of_nil in Hin.
  - fold (real_edge edge). destruct (real_edge edge) eqn:Hreal; cbn.
    + intros H. apply bind_Ok in H as (c0 & e1 & HG & H).
      rewrite GetHighwayClass_valid in HG by done. cbn in HG.
      destruct (proper_class (feature_class (GetFeatureId edge))) eqn:Hp;
        [|done].
      injection HG as <- <-.
      intros edge' [->|Hin]%elem_of_cons Hreal'; [done|].
      exact (IH _ _ (He : unassigned (with_loader _ e)) H edge' Hin Hreal').
    + intros H edge' [->|Hin]%elem_of_cons Hreal'; [congruence|].
      exact (IH _ _ He H edge' Hin Hreal').
Qed.

Lemma Generate_step_Debug_proper graph path routeEdges i e u e' r :
  unassigned e →
  Generate_step Debug graph path routeEdges i e = Ok (u, e') →
  round_of graph path routeEdges i = Some r →
  (∀ cand, cand ∈ candidates (m_outgoingTurns (round_record r)) →
           proper_class (highwayClass cand) = true) ∧
  (m_path (round_segment r) ≠ [] →
   proper_class (m_highwayClass (round_segment r)) = true).
Proof.
  intros He. unfold Generate_step. cbv zeta. intros H Hr.
  apply bind_Ok in H as (prev & e1 & [Hprev ->]%at_Ok & H).
  apply bind_Ok in H as (curr & e2 & [Hcurr ->]%at_Ok & H).
  apply bind_Ok in H as (? & e3 & [-> _]%ASSERT_Ok & H).
  apply bind_Ok in H as (inEdge & e4 & [Hin ->]%at_Ok & H).
  apply bind_Ok in H as (outgoing & e5 & Hfill & H).
  pose proof (fillCandidates_Debug_proper _ _ _ _ _ He Hfill) as Hproper.
  apply fillCandidates_Ok in Hfill as (_ & He5 & _); [|done].
  apply bind_Ok in H as (s & e6 & Hseg & _).
  unfold round_of in Hr. rewrite Hprev, Hcurr, Hin in Hr. cbn in Hr.
  injection Hr as <-. cbn. split.
  - intros cand (edge & -> & Hedge)%list_elem_of_fmap. cbn.
    apply list_elem_of_In, filter_In in Hedge as [Hedge Hreal].
    apply Hproper; [by apply list_elem_of_In|done].
  - unfold segment_for. destruct (IsValid (GetFeatureId inEdge)) eqn:Hvalid;
      [|done].
    intros _. rewrite LoadPathGeometry_valid in Hseg by done. cbn in Hseg.
    unfold segment_of. cbn. fold (feature_class (GetFeatureId inEdge)).
    by destruct (proper_class (feature_class (GetFeatureId inEdge))).
Qed.

Lemma Generate_loop_Debug_proper graph path routeEdges indices e u e'
    (rounds : list Round) :
  unassigned e →
  Generate_loop Debug graph path routeEdges indices e = Ok (u, e') →
  Forall2 (λ i r, round_of graph path routeEdges i = Some r) indices rounds →
  ∀ r, r ∈ rounds →
       (∀ cand, cand ∈ candidates (m_outgoingTurns (round_record r)) →
                proper_class (highwayClass cand) = true) ∧
       (m_path (round_segment r) ≠ [] →
        proper_class (m_highwayClass (round_segment r)) = true).
Proof.
  intros He H Hall. revert e He H.
  induction Hall as [|i r0 indices rounds Hr0 Hall IH]; intros e He H r Hr.
  - by apply elem_of_nil in Hr.
  - cbn in H. apply bind_Ok in H as (? & e1 & Hstep & H).
    apply elem_of_cons in Hr as [->|Hr].
    + by eapply Generate_step_Debug_proper.
    + apply Generate_step_effect in Hstep as (_ & _ & _ & _ & _ & He1); [|done].
      by eapply IH.
Qed.

(** Where a record of the rounds comes from: the map before them, or one
    of the rounds, under its key. *)
Lemma register_rounds_origin (rounds : list Round)
    (m : gmap N (AdjacentEdges double)) key a :
  register_rounds rounds m !! key = Some a →
  m !! key = Some a ∨
  ∃ r, r ∈ rounds ∧ round_key r = key ∧ round_record r = a.
Proof.
  revert m. induction rounds as [|r0 rounds IH]; intros m; cbn; [by left|].
  intros [H|(r & Hr & Hk & Ha)]%IH.
  - unfold map_insert in H. destruct (m !! round_key r0) eqn:H0; [by left|].
    destruct (decide (round_key r0 = key)) as [<-|Hne].
    + rewrite lookup_insert_eq in H. injection H as <-.
      right. exists r0. split; [set_solver|done].
    + rewrite lookup_insert_ne in H by done. by left.
  - right. exists r. split; [set_solver|done].
Qed.

(** X15.  When a debug build has reached the adapter, no turn candidate in
    the adjacency map and no segment loaded for a real edge carries the
    class Error or Undefined: the assertions of GetHighwayClass and
    LoadPathGeometry have seen each of them.  (The cleared segments of fake
    edges do carry Undefined.) *)
Theorem Generate_debug_classes graph path (c : Cancellable) e rg out e' :
  unassigned e →
  Generate Debug graph path c e = Ok (NormalOutcome rg out, e') →
  (∀ key a cand,
     m_adjacentEdges rg !! key = Some a →
     cand ∈ candidates (m_outgoingTurns a) →
     highwayClass cand ≠ Error ∧ highwayClass cand ≠ Undefined) ∧
  (∀ s, s ∈ m_pathSegments rg → m_path s ≠ [] →
        m_highwayClass s ≠ Error ∧ m_highwayClass s ≠ Undefined).
Proof.
  intros He H.
  assert (∀ cl, proper_class cl = true → cl ≠ Error ∧ cl ≠ Undefined) as Hcl.
  { intros cl. unfold proper_class. by destruct cl. }
  pose proof H as Hinv.
  apply Generate_Normal_inv in Hinv as (_ & _ & _ & Hloop & Ha & Hs).
  assert (unassigned (sentinel_engine e)) as He0 by done.
  destruct (Generate_loop_effect _ _ _ _ _ _ _ _ He0 Hloop)
    as (rounds & Hall & Ha' & Hs' & _).
  pose proof (Generate_loop_Debug_proper _ _ _ _ _ _ _ _ He0 Hloop Hall)
    as Hproper.
  split.
  - intros key a cand Hlook Hcand. apply Hcl.
    rewrite Ha, Ha' in Hlook.
    apply register_rounds_origin in Hlook as [Hlook|(r & Hr & _ & <-)].
    + cbn in Hlook. unfold map_insert in Hlook.
      rewrite lookup_empty in Hlook.
      destruct (decide (key = 0%N)) as [->|Hne].
      * rewrite lookup_insert_eq in Hlook. injection Hlook as <-.
        by apply elem_of_nil in Hcand.
      * rewrite lookup_insert_ne, lookup_empty in Hlook; done.
    + by apply (Hproper r Hr).
  - intros s Hin Hpath. apply Hcl.
    rewrite Hs, Hs' in Hin. cbn in Hin.
    apply list_elem_of_fmap in Hin as (r & -> & Hr).
    by apply (Hproper r Hr).
Qed.

(** *** The adapter and the loader, call by call *)

(** X9.  GetStartPoint is the start of the first edge and GetEndPoint the end
    of the last; on an adapter over no edge both fail their CHECK, which is
    not a matter of the build. *)
Theorem adapter_endpoints (routeEdges : list (Edge PointD)) adjacentEdges
    pathSegments :
  let r := AStarRoutingResult_ctor routeEdges adjacentEdges pathSegments in
  (routeEdges = [] →
   GetStartPoint r = Crash CheckFailed ∧ GetEndPoint r = Crash CheckFailed) ∧
  (∀ first rest, routeEdges = first :: rest →
                 GetStartPoint r = Ok (GetPoint (GetStartJunction first))) ∧
  (∀ init final, routeEdges = init ++ [final] →
                 GetEndPoint r = Ok (GetPoint (GetEndJunction final))).
Proof.
  cbv zeta. split; [by intros ->|]. split.
  - by intros first rest ->.
  - intros init final ->. unfold GetEndPoint. cbn.
    rewrite last_snoc. by destruct init.
Qed.

(** X10.  What GetPossibleTurns hands back depends on the adapter and the key
    only: not on the two points, not on the candidates the caller's object
    held; and the caller's isCandidatesAngleValid is left as it was, the
    flag stored in the record is not copied. *)
Theorem GetPossibleTurns_out_parameters build
    (r : AStarRoutingResult PointD double) nodeId p q outgoingTurns
    ingoingCount turns :
  GetPossibleTurns build r nodeId p q outgoingTurns = Ok (ingoingCount, turns) →
  isCandidatesAngleValid turns = isCandidatesAngleValid outgoingTurns ∧
  ∀ p' q' held,
    GetPossibleTurns build r nodeId p' q'
      (mkTurnCandidates held (isCandidatesAngleValid outgoingTurns))
    = Ok (ingoingCount, turns).
Proof.
  unfold GetPossibleTurns. cbv zeta.
  destruct (m_adjacentEdges r !! nodeId) as [a|].
  - intros [= <- <-]. by split.
  - destruct (ASSERT_pure build false); [|done]. intros [= <- <-]. by split.
Qed.

(** X11.  After UpdateFeatureLoaderGuardIfNeeded there is a guard, and nothing but
    the guard has changed: either a loader of the requested partition has
    been built, or the guard is the one held before and the requested
    partition is the remembered one.  The remembered partition itself is
    never written. *)
Theorem UpdateFeatureLoaderGuardIfNeeded_post mwmId e :
  ∃ e',
    UpdateFeatureLoaderGuardIfNeeded mwmId e = Ok (tt, e') ∧
    e_adjacentEdges e' = e_adjacentEdges e ∧
    e_pathSegments e' = e_pathSegments e ∧
    m_mwmIdFeaturesLoaderGuard e' = m_mwmIdFeaturesLoaderGuard e ∧
    is_Some (m_featuresLoaderGuard e') ∧
    ((m_featuresLoaderGuard e' = Some (mkGuard mwmId) ∧
      loadersConstructed e' = loadersConstructed e ++ [mwmId] ∧
      (m_featuresLoaderGuard e = None ∨ mwmId ≠ m_mwmIdFeaturesLoaderGuard e)) ∨
     (m_featuresLoaderGuard e' = m_featuresLoaderGuard e ∧
      loadersConstructed e' = loadersConstructed e ∧
      mwmId = m_mwmIdFeaturesLoaderGuard e)).
Proof.
  unfold UpdateFeatureLoaderGuardIfNeeded.
  destruct (negb _ || _) eqn:Hc.
  - eexists. split; [done|]. cbn. repeat split; [by eexists|]. left.
    repeat split. apply orb_true_iff in Hc as [Hg|Hid].
    + left. apply negb_true_iff, bool_decide_eq_false in Hg.
      destruct (m_featuresLoaderGuard e); [|done]. exfalso. apply Hg. by eexists.
    + right. by apply bool_decide_eq_true in Hid.
  - apply orb_false_iff in Hc as [Hg Hid].
    apply negb_false_iff, bool_decide_eq_true in Hg.
    apply bool_decide_eq_false in Hid.
    exists e. repeat split; [done|]. right. repeat split.
    by destruct (decide (mwmId = m_mwmIdFeaturesLoaderGuard e)).
Qed.

(** X12.  On an engine as constructed, the class of a valid feature is read
    through a loader of the feature's own partition.  A release build hands
    it back as it is, Error and Undefined included; a debug build stops on
    exactly these two, and on any other class it returns the class and
    leaves the same engine as the release build. *)
Theorem GetHighwayClass_checked featureId e :
  unassigned e → IsValid featureId = true →
  GetHighwayClass Release featureId e
  = Ok (feature_class featureId, with_loader (m_mwmId featureId) e) ∧
  (GetHighwayClass Debug featureId e = Crash AssertFailed ↔
   feature_class featureId = Error ∨ feature_class featureId = Undefined) ∧
  (∀ c e', GetHighwayClass Debug featureId e = Ok (c, e') →
           c = feature_class featureId ∧ c ≠ Error ∧ c ≠ Undefined) ∧
  (feature_class featureId ≠ Error → feature_class featureId ≠ Undefined →
   GetHighwayClass Debug featureId e
   = Ok (feature_class featureId, with_loader (m_mwmId featureId) e)).
Proof.
  intros He Hvalid. rewrite !GetHighwayClass_valid by done. cbn.
  split; [done|]. unfold proper_class.
  destruct (feature_class featureId) as [| |cl]; cbn.
  - split; [split; [by right|done]|]. split; [done|]. by intros _ Hne.
  - split; [split; [by left|done]|]. split; [done|]. by intros Hne.
  - split; [split; [done|by intros [|]]|]. split; [|done].
    intros c' e' [= <- _]. done.
Qed.

(** X13.  LoadPathGeometry on an invalid feature: a debug build stops on
    ASSERT(false); a release build hands back a cleared segment and builds
    no loader.  On a valid feature, on an engine as constructed, a release
    build fills the segment from the feature's own partition, with the
    given points as path, the feature index as node id and the weight left
    unset, and builds one loader. *)
Theorem LoadPathGeometry_result featureId pts e :
  (IsValid featureId = false →
   LoadPathGeometry Debug featureId pts e = Crash AssertFailed ∧
   LoadPathGeometry Release featureId pts e = Ok (LoadedPathSegment_Clear, e)) ∧
  (IsValid featureId = true → unassigned e →
   ∃ s, LoadPathGeometry Release featureId pts e
        = Ok (s, with_loader (m_mwmId featureId) e) ∧
        m_path s = pts ∧
        m_nodeId s = m_index featureId ∧
        m_highwayClass s = feature_class featureId ∧
        m_weight s = dzero).
Proof.
  split.
  - intros Hvalid. unfold LoadPathGeometry. by rewrite Hvalid.
  - intros Hvalid He. exists (segment_of featureId pts).
    by rewrite LoadPathGeometry_valid.
Qed.

End Coverage.

(** * The engine at work on the sample world *)

(** Counterexample to C1 as stated: the empty path.
    CHECK_NOT_EQUAL(pathSize, 0) stops a release build too, and nothing is
    returned. *)
Lemma Release_empty_path_no_result :
  ¬ ∃ o e', Generate (W := sample_world) Release sample_graph []
                     never_cancelled sample_engine = Ok (o, e').
Proof. intros (o & e' & H). vm_compute in H. discriminate H. Qed.

Lemma Generate_input_shape_witness :
  length [sample_j 0] ≤ 1 ∧
  ∃ out e', Generate (W := sample_world) Release sample_graph [sample_j 0]
                     never_cancelled sample_engine
            = Ok (DegenerateOutcome out, e').
Proof.
  assert (length [sample_j 0] ≤ 1) as Hlen by (simpl; lia).
  split; [exact Hlen|].
  destruct (Generate_input_shape (W := sample_world) sample_graph [sample_j 0]
              never_cancelled sample_engine Hlen)
    as [[Hnil _]|(_ & _ & out & e' & Hgen & _)].
  - discriminate Hnil.
  - exists out, e'. exact Hgen.
Defined.

(** Counterexample to C7 as stated: a debug build and a single junction.
    ASSERT(false, (pathSize)) ends the call and there is no output. *)
Lemma Debug_single_junction_no_output :
  ¬ ∃ o e', Generate (W := sample_world) Debug sample_graph [sample_j 0]
                     never_cancelled sample_engine = Ok (o, e').
Proof. intros (o & e' & H). vm_compute in H. discriminate H. Qed.

Lemma Generate_single_junction_witness :
  length [sample_j 0] = 1 ∧
  ∃ out e' a,
    Generate (W := sample_world) Release sample_graph [sample_j 0]
             never_cancelled sample_engine = Ok (DegenerateOutcome out, e') ∧
    out_turns out = [mkTurnItem 0 ReachedYourDestination] ∧
    size (e_adjacentEdges e') = 1 ∧
    e_adjacentEdges e' !! 0%N = Some a ∧
    m_ingoingTurnsCount a = 1 ∧
    candidates (m_outgoingTurns a) = [].
Proof.
  split; [reflexivity|].
  exact (proj2 (Generate_single_junction (W := sample_world) sample_graph
                  [sample_j 0] never_cancelled sample_engine eq_refl)).
Defined.

(** Counterexample to C3 as stated: in a release build key 5, which is absent,
    is answered as key 0, whose record has no ingoing edge and no
    candidate. *)
Lemma GetPossibleTurns_absent_like_present :
  ¬ absent_key_distinguishable Release sample_adapter 5%N 0%N 0%Z 10%Z
      (mkTurnCandidates [] true).
Proof.
  intros H. apply H.
  - vm_compute. reflexivity.
  - exists (AdjacentEdges_ctor (W := sample_world) 0). vm_compute. reflexivity.
  - vm_compute. reflexivity.
Qed.

Lemma GetPossibleTurns_lookup_witness :
  m_adjacentEdges sample_adapter !! 5%N = None ∧
  GetPossibleTurns Debug sample_adapter 5%N 0%Z 10%Z (mkTurnCandidates [] true)
  = Crash AssertFailed.
Proof.
  assert (m_adjacentEdges sample_adapter !! 5%N = None) as Hnone
    by (vm_compute; reflexivity).
  split; [exact Hnone|].
  exact (proj1 (proj2 (GetPossibleTurns_lookup (W := sample_world) Debug
                         sample_adapter 5%N 0%Z 10%Z (mkTurnCandidates [] true))
                      Hnone)).
Defined.

(** Counterexample to C4 as stated: 0 - 10 - 20 - 30.  Three edges are
    traversed; the first two lie on feature 7 and the third on feature 0,
    so the map ends with two entries, under 0 and 7, and not with four. *)
Lemma Generate_shared_feature_index :
  ∃ rg out e',
    Generate (W := sample_world) Release sample_graph sample_path4
             never_cancelled sample_engine = Ok (NormalOutcome rg out, e') ∧
    length (m_routeEdges rg) = 3 ∧
    size (m_adjacentEdges rg) = 2 ∧
    size (m_adjacentEdges rg) ≠ 1 + length (m_routeEdges rg).
Proof.
  eexists _, _, _. split; [vm_compute; reflexivity|].
  split; [reflexivity|]. split; [vm_compute; reflexivity|].
  vm_compute. discriminate.
Qed.

Lemma Generate_normal_shape_witness :
  ReconstructPath (Collaborators := sample_world) sample_graph sample_path4
                  never_cancelled
  = (true, [sample_e01; sample_e12; sample_e23]) ∧
  ∃ rg out e',
    Generate (W := sample_world) Release sample_graph sample_path4
             never_cancelled sample_engine = Ok (NormalOutcome rg out, e').
Proof.
  assert (ReconstructPath (Collaborators := sample_world) sample_graph
            sample_path4 never_cancelled
          = (true, [sample_e01; sample_e12; sample_e23])) as HR
    by (vm_compute; reflexivity).
  split; [exact HR|].
  refine (proj1 (Generate_normal_shape (W := sample_world) sample_graph
                   sample_path4 never_cancelled sample_engine
                   [sample_e01; sample_e12; sample_e23] HR _ _)).
  - discriminate.
  - reflexivity.
Defined.

Lemma Generate_cancelled_witness :
  3 ≤ length sample_path4 ∧
  cancelled_at_1 1 = true ∧
  ∃ out e',
    Generate (W := sample_world) Release sample_graph sample_path4
             cancelled_at_1 sample_engine = Ok (DegenerateOutcome out, e') ∧
    out_turns out = [mkTurnItem 3 ReachedYourDestination] ∧
    out_routeGeometry out = [] ∧
    e_pathSegments e' = [].
Proof.
  assert (3 ≤ length sample_path4) as Hlen by (simpl; lia).
  assert (cancelled_at_1 1 = true) as Hfire by reflexivity.
  split; [exact Hlen|]. split; [exact Hfire|].
  destruct (Generate_cancelled (W := sample_world) (λ _ _ _, eq_refl) Release
              sample_graph sample_path4 cancelled_at_1 sample_engine Hlen)
    as (out & e' & Hgen & Hturns & Hgeom & _ & Hsegs & _).
  - exists 1. split; [simpl; lia|exact Hfire].
  - exists out, e'. split; [exact Hgen|]. split; [exact Hturns|].
    split; [exact Hgeom|exact Hsegs].
Defined.

(** The junction at 10: a fake edge and two real ones give two candidates. *)
Lemma fillCandidates_valid_edges_witness :
  unassigned sample_engine ∧
  ∃ cands e',
    fillCandidates (W := sample_world) Debug
      [sample_fake; sample_e12; sample_side] [] sample_engine = Ok (cands, e') ∧
    length cands = 2 ∧
    highwayClass <$> cands = [Road 107; Road 203].
Proof.
  assert (unassigned sample_engine) as Hun by reflexivity.
  split; [exact Hun|].
  destruct (fillCandidates_valid_edges (W := sample_world) Debug
              [sample_fake; sample_e12; sample_side] sample_engine Hun)
    as (cands & e' & Hfill & Hcands & _).
  - intros _ edge Hin Hreal.
    apply list_elem_of_In in Hin. simpl in Hin.
    destruct Hin as [<-|[<-|[<-|[]]]].
    + discriminate Hreal.
    + vm_compute. reflexivity.
    + vm_compute. reflexivity.
  - exists cands, e'. split; [exact Hfill|]. rewrite Hcands.
    split; vm_compute; reflexivity.
Defined.

Lemma Generate_twice_witness :
  unassigned sample_engine ∧
  ∃ o1 e1 o2 e2,
    Generate (W := sample_world) Release sample_graph sample_path4
             never_cancelled sample_engine = Ok (o1, e1) ∧
    Generate (W := sample_world) Release sample_graph sample_path4
             never_cancelled e1 = Ok (o2, e2) ∧
    m_featuresLoaderGuard e1 ≠ m_featuresLoaderGuard sample_engine ∧
    out_turns (outputs o2) = out_turns (outputs o1).
Proof.
  assert (unassigned sample_engine) as Hun by reflexivity.
  split; [exact Hun|].
  assert (∃ o1 e1,
            Generate (W := sample_world) Release sample_graph sample_path4
                     never_cancelled sample_engine = Ok (o1, e1) ∧
            m_featuresLoaderGuard e1 ≠ m_featuresLoaderGuard sample_engine)
    as (o1 & e1 & H1 & Hguard).
  { eexists _, _. split; [vm_compute; reflexivity|]. vm_compute. discriminate. }
  destruct (Generate_twice (W := sample_world) Release sample_graph sample_path4
              never_cancelled sample_engine o1 e1 Hun H1)
    as (o2 & e2 & H2 & _ & Hturns & _).
  exists o1, e1, o2, e2. split; [exact H1|]. split; [exact H2|].
  split; [exact Hguard|exact Hturns].
Defined.

Lemma Generate_adapter_nonempty_witness :
  2 ≤ length sample_path4 ∧
  (ReconstructPath (Collaborators := sample_world) sample_graph sample_path4
                   cancelled_at_1).1 = false ∧
  ∃ out e',
    Generate (W := sample_world) Release sample_graph sample_path4
             cancelled_at_1 sample_engine = Ok (DegenerateOutcome out, e').
Proof.
  assert (2 ≤ length sample_path4) as Hlen by (simpl; lia).
  assert ((ReconstructPath (Collaborators := sample_world) sample_graph
             sample_path4 cancelled_at_1).1 = false) as Hfail
    by (vm_compute; reflexivity).
  split; [exact Hlen|]. split; [exact Hfail|].
  eexists _, _.
  exact (proj2 (Generate_adapter_nonempty (W := sample_world) Release
                  sample_graph sample_path4 cancelled_at_1 sample_engine)
               Hlen (or_introl Hfail)).
Defined.

(** C2, at the input where the code does not do what the claim says: a new
    engine resolves feature 7 of partition 1 twice in a row, and a loader is
    built both times.  UpdateFeatureLoaderGuardIfNeeded replaces the guard
    but leaves m_mwmIdFeaturesLoaderGuard as constructed, so the partition
    of a valid feature always differs from it. *)
Theorem GetHighwayClass_builds_loader_twice :
  ∃ e2,
    bind (GetHighwayClass (W := sample_world) Release (mkFeatureID (Some 1) 7))
         (λ _, GetHighwayClass (W := sample_world) Release (mkFeatureID (Some 1) 7))
         sample_engine
    = Ok (Road 107, e2) ∧
    loadersConstructed e2 = [Some 1; Some 1] ∧
    m_mwmIdFeaturesLoaderGuard e2 = None.
Proof. eexists. split; [vm_compute; reflexivity|]. by split. Qed.

(** Two edges that leave a span out: 0 - 10 and 20 - 30 add up to 20,
    where the junctions 0, 10, 20, 30 are 30 apart. *)
Example GetPathLength_own_endpoints :
  GetPathLength (AStarRoutingResult_ctor (W := sample_world)
                   [sample_e01; sample_e23] ∅ []) = 20%Z.
Proof. reflexivity. Qed.

(** ** The further properties on the sample world *)

Lemma Generate_segments_witness :
  unassigned sample_engine ∧
  ∃ rg out e',
    Generate (W := sample_world) Release sample_graph sample_path4
             never_cancelled sample_engine = Ok (NormalOutcome rg out, e') ∧
    m_pathSegments rg !! 2
    = Some (segment_for (W := sample_world) (sample_j 20) (sample_j 30)
                        sample_e23).
Proof.
  assert (unassigned sample_engine) as Hun by reflexivity.
  split; [exact Hun|].
  assert (∃ rg out e',
            Generate (W := sample_world) Release sample_graph sample_path4
                     never_cancelled sample_engine
            = Ok (NormalOutcome rg out, e') ∧
            m_routeEdges rg !! 2 = Some sample_e23)
    as (rg & out & e' & Hgen & Hedge).
  { eexists _, _, _. split; vm_compute; reflexivity. }
  exists rg, out, e'. split; [exact Hgen|].
  apply (proj2 (Generate_segments (W := sample_world) Release sample_graph
                  sample_path4 never_cancelled sample_engine rg out e'
                  Hun Hgen) 2);
    [reflexivity|reflexivity|exact Hedge].
Defined.

Lemma Generate_then_GetPossibleTurns_witness :
  unassigned sample_engine ∧
  ∃ rg out e',
    Generate (W := sample_world) Release sample_graph sample_path4
             never_cancelled sample_engine = Ok (NormalOutcome rg out, e') ∧
    GetPossibleTurns Debug rg 7%N 0%Z 10%Z (mkTurnCandidates [] true)
    = Ok (1, mkTurnCandidates
               [mkTurnCandidate 0%Z 7%N (Road 107);
                mkTurnCandidate 0%Z 3%N (Road 203)]
               true).
Proof.
  assert (unassigned sample_engine) as Hun by reflexivity.
  split; [exact Hun|].
  assert (∃ rg out e',
            Generate (W := sample_world) Release sample_graph sample_path4
                     never_cancelled sample_engine
            = Ok (NormalOutcome rg out, e') ∧
            m_routeEdges rg !! 0 = Some sample_e01)
    as (rg & out & e' & Hgen & Hedge).
  { eexists _, _, _. split; vm_compute; reflexivity. }
  exists rg, out, e'. split; [exact Hgen|].
  apply (Generate_then_GetPossibleTurns (W := sample_world) Release sample_graph
           sample_path4 never_cancelled sample_engine rg out e' 0 sample_e01
           (sample_j 10) Hun Hgen Hedge).
  - reflexivity.
  - discriminate.
  - intros j edge Hj. lia.
Defined.

Lemma Generate_lookup_finds_witness :
  ∃ rg out e' ingoingCount turns,
    Generate (W := sample_world) Release sample_graph sample_path4
             never_cancelled sample_engine = Ok (NormalOutcome rg out, e') ∧
    GetPossibleTurns Debug rg 7%N 0%Z 10%Z (mkTurnCandidates [] true)
    = Ok (ingoingCount, turns).
Proof.
  assert (∃ rg out e',
            Generate (W := sample_world) Release sample_graph sample_path4
                     never_cancelled sample_engine
            = Ok (NormalOutcome rg out, e') ∧
            m_routeEdges rg !! 1 = Some sample_e12)
    as (rg & out & e' & Hgen & Hedge).
  { eexists _, _, _. split; vm_compute; reflexivity. }
  destruct (Generate_lookup_finds (W := sample_world) Release sample_graph
              sample_path4 never_cancelled sample_engine rg out e' Hgen 7%N)
    with (build' := Debug) (p := 0%Z) (q := 10%Z)
         (outgoingTurns := mkTurnCandidates (double := Z) [] true)
    as (ingoingCount & turns & Hturns).
  - right. exists 1, sample_e12. split; [simpl; lia|]. split; [exact Hedge|reflexivity].
  - exists rg, out, e', ingoingCount, turns. split; [exact Hgen|exact Hturns].
Defined.

Lemma Generate_loaders_built_witness :
  unassigned sample_engine ∧
  ∃ rg out e',
    Generate (W := sample_world) Release sample_graph sample_path4
             never_cancelled sample_engine = Ok (NormalOutcome rg out, e') ∧
    loadersConstructed e' = [Some 1; Some 2; Some 1; Some 2; Some 1; Some 2].
Proof.
  assert (unassigned sample_engine) as Hun by reflexivity.
  split; [exact Hun|].
  assert (∃ rg out e',
            Generate (W := sample_world) Release sample_graph sample_path4
                     never_cancelled sample_engine
            = Ok (NormalOutcome rg out, e') ∧
            loadersConstructed e'
            = [Some 1; Some 2; Some 1; Some 2; Some 1; Some 2])
    as (rg & out & e' & Hgen & Hlog).
  { eexists _, _, _. split; vm_compute; reflexivity. }
  destruct (Generate_loaders_built (W := sample_world) Release sample_graph
              sample_path4 never_cancelled sample_engine rg out e' Hun Hgen)
    as (rounds & _ & _ & _).
  exists rg, out, e'. split; [exact Hgen|exact Hlog].
Defined.

Lemma Generate_faults_witness :
  Generate (W := short_world) Release sample_graph sample_path4
           never_cancelled sample_engine = Crash OutOfRange ∧
  ∃ routeEdges,
    ReconstructPath (Collaborators := short_world) sample_graph sample_path4
                    never_cancelled = (true, routeEdges) ∧
    length routeEdges < length sample_path4 - 1 ∧
    ∀ e0 : Engine Z Z,
      at_ routeEdges (S (length routeEdges) - 1) e0 = Crash OutOfRange.
Proof.
  assert (Generate (W := short_world) Release sample_graph sample_path4
                   never_cancelled sample_engine = Crash OutOfRange) as Hgen
    by (vm_compute; reflexivity).
  split; [exact Hgen|].
  destruct (Generate_faults (W := short_world) Release sample_graph
              sample_path4 never_cancelled sample_engine OutOfRange Hgen)
    as [[Hf _]|[[Hf _]|(_ & _ & routeEdges & i & HR & Hshort & Hi & _ & Hread & _)]].
  - discriminate Hf.
  - discriminate Hf.
  - exists routeEdges. split; [exact HR|]. split; [exact Hshort|].
    rewrite <- Hi. exact Hread.
Defined.

Lemma Generate_debug_edge_count_witness :
  2 ≤ length sample_path4 ∧
  Generate (W := short_world) Debug sample_graph sample_path4 never_cancelled
           sample_engine = Crash AssertFailed.
Proof.
  assert (2 ≤ length sample_path4) as Hlen by (simpl; lia).
  split; [exact Hlen|].
  apply (Generate_debug_edge_count (W := short_world) sample_graph sample_path4
           never_cancelled sample_engine [sample_e01] Hlen).
  - reflexivity.
  - simpl. lia.
Defined.

Lemma Generate_release_too_few_edges_witness :
  length [sample_e01] < length sample_path4 - 1 ∧
  Generate (W := short_world) Release sample_graph sample_path4 never_cancelled
           sample_engine = Crash OutOfRange.
Proof.
  assert (length [sample_e01] < length sample_path4 - 1) as Hlen
    by (simpl; lia).
  split; [exact Hlen|].
  apply (Generate_release_too_few_edges (W := short_world) sample_graph
           sample_path4 never_cancelled sample_engine [sample_e01]).
  - reflexivity.
  - discriminate.
  - exact Hlen.
Defined.

Lemma Generate_forgets_witness :
  unassigned sample_engine ∧ unassigned used_engine ∧
  ∃ o e1' e2',
    Generate (W := sample_world) Release sample_graph sample_path4
             never_cancelled sample_engine = Ok (o, e1') ∧
    Generate (W := sample_world) Release sample_graph sample_path4
             never_cancelled used_engine = Ok (o, e2') ∧
    e_adjacentEdges e2' = e_adjacentEdges e1'.
Proof.
  assert (unassigned sample_engine) as H1 by reflexivity.
  assert (unassigned used_engine) as H2 by reflexivity.
  split; [exact H1|]. split; [exact H2|].
  assert (∃ o e1',
            Generate (W := sample_world) Release sample_graph sample_path4
                     never_cancelled sample_engine = Ok (o, e1'))
    as (o & e1' & Hgen).
  { eexists _, _. vm_compute. reflexivity. }
  destruct (Generate_forgets (W := sample_world) Release sample_graph
              sample_path4 never_cancelled sample_engine used_engine o e1'
              H1 H2 Hgen) as (e2' & Hgen2 & Ha & _).
  exists o, e1', e2'. split; [exact Hgen|]. split; [exact Hgen2|exact Ha].
Defined.

Lemma adapter_endpoints_witness :
  GetStartPoint (AStarRoutingResult_ctor (W := sample_world)
                   ([sample_e01; sample_e12] ++ [sample_e23]) ∅ []) = Ok 0%Z ∧
  GetEndPoint (AStarRoutingResult_ctor (W := sample_world)
                 ([sample_e01; sample_e12] ++ [sample_e23]) ∅ []) = Ok 30%Z.
Proof.
  destruct (adapter_endpoints (W := sample_world)
              ([sample_e01; sample_e12] ++ [sample_e23]) ∅ [])
    as (_ & Hstart & Hend).
  split.
  - exact (Hstart sample_e01 [sample_e12; sample_e23] eq_refl).
  - exact (Hend [sample_e01; sample_e12] sample_e23 eq_refl).
Defined.

Lemma GetPossibleTurns_out_parameters_witness :
  GetPossibleTurns Release sample_adapter 0%N 0%Z 10%Z
    (mkTurnCandidates [] false)
  = Ok (0, mkTurnCandidates [] false) ∧
  GetPossibleTurns Release sample_adapter 0%N 5%Z 7%Z
    (mkTurnCandidates [mkTurnCandidate 0%Z 9%N (Road 1)] false)
  = Ok (0, mkTurnCandidates [] false).
Proof.
  assert (GetPossibleTurns Release sample_adapter 0%N 0%Z 10%Z
            (mkTurnCandidates [] false)
          = Ok (0, mkTurnCandidates [] false)) as Hget
    by (vm_compute; reflexivity).
  split; [exact Hget|].
  exact (proj2 (GetPossibleTurns_out_parameters Release
                  sample_adapter 0%N 0%Z 10%Z (mkTurnCandidates [] false)
                  0 (mkTurnCandidates [] false) Hget)
               5%Z 7%Z [mkTurnCandidate 0%Z 9%N (Road 1)]).
Defined.

Lemma GetHighwayClass_checked_witness :
  unassigned used_engine ∧
  GetHighwayClass (W := sample_world) Release (mkFeatureID (Some 1) 7)
                  used_engine
  = Ok (Road 107, with_loader (Some 1) used_engine).
Proof.
  assert (unassigned used_engine) as Hun by reflexivity.
  split; [exact Hun|].
  exact (proj1 (GetHighwayClass_checked (W := sample_world)
                  (mkFeatureID (Some 1) 7) used_engine Hun eq_refl)).
Defined.

Lemma LoadPathGeometry_result_witness :
  IsValid (mkFeatureID None 4) = false ∧
  LoadPathGeometry (W := sample_world) Release (mkFeatureID None 4)
                   [0%Z; 10%Z] used_engine
  = Ok (LoadedPathSegment_Clear (W := sample_world), used_engine).
Proof.
  split; [reflexivity|].
  exact (proj2 (proj1 (LoadPathGeometry_result (W := sample_world)
                         (mkFeatureID None 4) [0%Z; 10%Z] used_engine)
                      eq_refl)).
Defined.

Lemma Generate_degenerate_witness :
  (Z.of_nat (length sample_path4) < 2 ^ 64)%Z ∧
  ∃ out e',
    Generate (W := sample_world) Release sample_graph sample_path4
             cancelled_at_1 sample_engine = Ok (DegenerateOutcome out, e') ∧
    out_turns out = [mkTurnItem 3 ReachedYourDestination] ∧
    e_pathSegments e' = [].
Proof.
  assert (Z.of_nat (length sample_path4) < 2 ^ 64)%Z as Hsize
    by (vm_compute; reflexivity).
  split; [exact Hsize|].
  assert (∃ out e',
            Generate (W := sample_world) Release sample_graph sample_path4
                     cancelled_at_1 sample_engine
            = Ok (DegenerateOutcome out, e')) as (out & e' & Hgen).
  { eexists _, _. vm_compute. reflexivity. }
  destruct (Generate_degenerate (W := sample_world) Release sample_graph
              sample_path4 cancelled_at_1 sample_engine out e' Hgen Hsize)
    as (_ & Hturns & _ & _ & Hsegs & _).
  exists out, e'. split; [exact Hgen|]. split; [exact Hturns|exact Hsegs].
Defined.

Lemma Generate_debug_classes_witness :
  unassigned sample_engine ∧
  ∃ rg out e',
    Generate (W := sample_world) Debug sample_graph sample_path4
             never_cancelled sample_engine = Ok (NormalOutcome rg out, e') ∧
    ∀ s, s ∈ m_pathSegments rg → m_path s ≠ [] →
         m_highwayClass s ≠ Error ∧ m_highwayClass s ≠ Undefined.
Proof.
  assert (unassigned sample_engine) as Hun by reflexivity.
  split; [exact Hun|].
  assert (∃ rg out e',
            Generate (W := sample_world) Debug sample_graph sample_path4
                     never_cancelled sample_engine
            = Ok (NormalOutcome rg out, e')) as (rg & out & e' & Hgen).
  { eexists _, _, _. vm_compute. reflexivity. }
  exists rg, out, e'. split; [exact Hgen|].
  exact (proj2 (Generate_debug_classes (W := sample_world) sample_graph
                  sample_path4 never_cancelled sample_engine rg out e'
                  Hun Hgen)).
Defined.

(** ** The candidate sets of the junctions of the sample path *)


